(** * The posting scheduler of [server.py]

    A shallow embedding of the job-control part of [server.py]: the global
    state ([posting_task], [is_posting], [config_data], [queue_data],
    [history_data]), the request handlers that mutate it and
    [posting_loop].

    Conventions.
    - A Python [str] is a list of Unicode code points ([N]).
    - A handler is a function from the state (and from whatever the outside
      world hands it: the decoded upload, the reply of an HTTP call, the
      clock, the handle of a freshly created task) to an [outcome]: the
      reply, the effects it issued in order, and the state it leaves.
    - [raise HTTPException(...)] is the [HTTPException] reply, an exception
      nobody catches is [InternalError]. *)

From Stdlib Require Import ZArith NArith List Ascii String Lia.
From stdpp Require Import base tactics numbers option list relations pretty.

Local Open Scope nat_scope.

(** ** Python strings *)

Module Str.

Definition char := N.
Definition str := list char.

(** An ASCII literal of the source as a [str]. *)
Definition lit (s : string) : str :=
  map N_of_ascii (list_ascii_of_string s).

Arguments lit : simpl never.

Definition LF : char := 10%N.

(** [str.isspace] on one code point (CPython's [_PyUnicode_IsWhitespace]);
    these are the characters [str.strip()] removes. *)
Definition is_space (c : char) : bool :=
  ((9 <=? c) && (c <=? 13) || (28 <=? c) && (c <=? 32)
   || (c =? 133) || (c =? 160) || (c =? 5760)
   || (8192 <=? c) && (c <=? 8202)
   || (c =? 8232) || (c =? 8233) || (c =? 8239) || (c =? 8287)
   || (c =? 12288))%N.

Fixpoint lstrip (s : str) : str :=
  match s with
  | c :: r => if is_space c then lstrip r else s
  | [] => []
  end.

Definition rstrip (s : str) : str := rev (lstrip (rev s)).

(** [s.strip()] *)
Definition strip (s : str) : str := rstrip (lstrip s).

(** [sep.join(ws)] *)
Fixpoint join (sep : char) (ws : list str) : str :=
  match ws with
  | [] => []
  | [w] => w
  | w :: ws => w ++ sep :: join sep ws
  end.

(** [s.split(sep)] for a one-character separator: never the empty list. *)
Fixpoint split (sep : char) (s : str) : list str :=
  match s with
  | [] => [[]]
  | c :: r =>
      if (c =? sep)%N then [] :: split sep r
      else match split sep r with
           | w :: ws => (c :: w) :: ws
           | [] => [[c]]
           end
  end.

Fixpoint startswith (s p : str) : bool :=
  match p, s with
  | [], _ => true
  | a :: p', b :: s' => (a =? b)%N && startswith s' p'
  | _ :: _, [] => false
  end.

(** [s.endswith(suffix)] *)
Definition endswith (s suffix : str) : bool :=
  startswith (rev s) (rev suffix).

(** Truth value of a [str]: non-empty. *)
Definition nonempty (s : str) : bool :=
  match s with [] => false | _ :: _ => true end.

(** Truth value of an [Optional[str]]: [None] and the empty string are
    false. *)
Definition truthy (o : option str) : bool :=
  match o with Some s => nonempty s | None => false end.

(** [str(n)] for a non-negative [int]. *)
Definition of_nat (n : nat) : str := lit (pretty n).

End Str.

Import Str.

(** ** Data model *)

(** [PostConfig]; [config.dict()] has exactly these six keys. *)
Record PostConfig := mkPostConfig {
  fb_token : str;
  page_id : option str;
  delay_minutes : Z;
  mention_uid : option str;
  mention_name : option str;
  prefix_text : option str
}.

(** [queue_data = {"lines": [...], "current_index": n}] *)
Record queue := mkQueue {
  lines : list str;
  current_index : nat
}.

(** One dict of [history_data]. *)
Record history_entry := mkEntry {
  content : str;
  line_number : nat;
  status : str;
  error_message : option str;
  posted_at : str
}.

(** The handle [asyncio.create_task] returns. *)
Definition task := nat.

(** The module's globals.  [config_data] is a dict that is either empty
    ([None]) or the six keys of a [PostConfig]. *)
Record state := mkState {
  posting_task : option task;
  is_posting : bool;
  config_data : option PostConfig;
  queue_data : queue;
  history_data : list history_entry
}.

Definition initial : state :=
  {| posting_task := None;
     is_posting := false;
     config_data := None;
     queue_data := {| lines := []; current_index := 0 |};
     history_data := [] |}.

(** ** The outside world *)

(** The form [client.post] sends. *)
Record post_data := mkPostData {
  message : str;
  access_token : str;
  tags : option str
}.

Inductive effect :=
| HttpGet (url : str) (token : str)
| HttpPost (url : str) (data : post_data)
| CreateTask (t : task)
| CancelTask (t : task)
| AwaitTask (t : task)
| Sleep (seconds : Z).

(** What [client.post] does: a response, or an exception [e] given by
    [str(e)]. *)
Inductive post_reply :=
| PostResponse (status_code : Z) (text : str)
| PostRaised (description : str).

(** The ["name"] member of the JSON object of a lookup response; the
    lookup endpoint gives a name as a string. *)
Inductive name_field :=
| NameMissing
| NameNull
| NameString (s : str).

(** What [client.get] does: a response whose body is a JSON object
    ([Some]) or anything else ([None], on which [.json().get] raises), or
    an exception (a timeout among them). *)
Inductive get_reply :=
| GetResponse (status_code : Z) (body : option name_field)
| GetRaised.

(** ** Replies *)

Inductive reply (A : Type) :=
| Ok (body : A)
| HTTPException (status_code : Z) (detail : str)
| InternalError.
Arguments Ok {A} body.
Arguments HTTPException {A} status_code detail.
Arguments InternalError {A}.

Record outcome (A : Type) := mkOutcome {
  answer : reply A;
  effects : list effect;
  final : state
}.
Arguments mkOutcome {A} answer effects final.
Arguments answer {A} o.
Arguments effects {A} o.
Arguments final {A} o.

(** [{"status": ..., "message": ...}] *)
Record status_message := mkStatusMessage {
  sm_status : str;
  sm_message : str
}.

(** The body of a successful upload. *)
Record upload_body := mkUploadBody {
  ub_status : str;
  ub_message : str;
  total_lines : nat
}.

(** [PostStatus] *)
Record PostStatus := mkPostStatus {
  is_running : bool;
  current_line : nat;
  ps_total_lines : nat
}.

(** ** The handlers *)

Definition graph : str := lit "https://graph.facebook.com/v21.0/".

(** [get_facebook_user_name]: the request it sends and what it returns.
    The [try] turns every exception into [None]. *)
Definition get_facebook_user_name (client_get : str → str → get_reply)
    (uid token : str) : list effect * option str :=
  let url := graph ++ uid in
  ([HttpGet url token],
   match client_get url token with
   | GetResponse status_code body =>
       if (status_code =? 200)%Z then
         match body with
         | Some NameMissing => Some []
         | Some NameNull => None
         | Some (NameString s) => Some s
         | None => None
         end
       else None
   | GetRaised => None
   end).

(** [config.get(key)] on [config_data]: [None] on the empty dict. *)
Definition get (key : PostConfig → option str) (config : option PostConfig)
  : option str := config ≫= key.

(** The text of an [Optional[str]] inside an f-string, where it is known to
    be a non-empty string. *)
Definition text_of (o : option str) : str := default [] o.

(** The first value of [message] in [post_to_facebook]: the entry behind
    the prefix. *)
Definition prefixed_message (config : option PostConfig) (text : str) : str :=
  if truthy (get prefix_text config)
  then text_of (get prefix_text config) ++ text
  else text.

(** The message [post_to_facebook] sends. *)
Definition composed_message (config : option PostConfig) (text : str) : str :=
  let message := prefixed_message config text in
  if truthy (get mention_uid config) then
    let mention_text :=
      if truthy (get mention_name config)
      then lit "@[" ++ text_of (get mention_uid config) ++ lit ":"
             ++ text_of (get mention_name config) ++ lit "]"
      else lit "@[" ++ text_of (get mention_uid config) ++ lit "]" in
    mention_text ++ lit " " ++ message
  else message.

(** The feed [post_to_facebook] posts to. *)
Definition feed_url (config : option PostConfig) : str :=
  if truthy (get page_id config)
  then graph ++ text_of (get page_id config) ++ lit "/feed"
  else graph ++ lit "me/feed".

(** [post_to_facebook].  On the empty dict [config['fb_token']] raises
    [KeyError] before anything is sent, and the [except] reports it. *)
Definition post_to_facebook (client_post : str → post_data → post_reply)
    (config : option PostConfig) (text : str)
  : list effect * (bool * option str) :=
  let message := composed_message config text in
  let url := feed_url config in
  match config with
  | None => ([], (false, Some (lit "'fb_token'")))
  | Some c =>
      let data :=
        {| message := message;
           access_token := fb_token c;
           tags := if truthy (mention_uid c) then mention_uid c else None |} in
      ([HttpPost url data],
       match client_post url data with
       | PostResponse status_code text =>
           if (status_code =? 200)%Z then (true, None)
           else (false, Some (lit "Facebook API Error: " ++ text))
       | PostRaised description => (false, Some description)
       end)
  end.

Definition with_queue (st : state) (q : queue) : state :=
  {| posting_task := posting_task st;
     is_posting := is_posting st;
     config_data := config_data st;
     queue_data := q;
     history_data := history_data st |}.

Definition with_history (st : state) (h : list history_entry) : state :=
  {| posting_task := posting_task st;
     is_posting := is_posting st;
     config_data := config_data st;
     queue_data := queue_data st;
     history_data := h |}.

Definition with_config (st : state) (c : option PostConfig) : state :=
  {| posting_task := posting_task st;
     is_posting := is_posting st;
     config_data := c;
     queue_data := queue_data st;
     history_data := history_data st |}.

Definition with_run (st : state) (t : option task) (running : bool) : state :=
  {| posting_task := t;
     is_posting := running;
     config_data := config_data st;
     queue_data := queue_data st;
     history_data := history_data st |}.

(** *** The loop *)

(** [history_data.insert(0, entry)], then the cut to 50. *)
Definition record (entry : history_entry) (h : list history_entry)
  : list history_entry :=
  let h := entry :: h in
  if 50 <? length h then take 50 h else h.

(** Recording a run of entries one after the other, oldest first. *)
Definition record_all (entries h : list history_entry) : list history_entry :=
  foldl (λ h entry, record entry h) h entries.

(** [current_index = (current_index + 1) % len(lines)] *)
Definition advance (q : queue) : queue :=
  {| lines := lines q;
     current_index := (current_index q + 1) mod length (lines q) |}.

(** [config_data.get('delay_minutes', 5) * 60] *)
Definition delay_seconds (config : option PostConfig) : Z :=
  (from_option delay_minutes 5 config * 60)%Z.

(** The rest of an iteration once [post_to_facebook] has returned: the
    history entry, the cut, the advance and the wait.  On an empty
    [lines] the modulo raises [ZeroDivisionError] after the entry is
    recorded, and the [except] waits 60. *)
Definition finish_cycle (current_line : str) (result : bool * option str)
    (now : str) (st : state) : list effect * state :=
  let q := queue_data st in
  let entry :=
    {| content := current_line;
       line_number := current_index q + 1;
       status := if result.1 then lit "success" else lit "failed";
       error_message := result.2;
       posted_at := now |} in
  let st := with_history st (record entry (history_data st)) in
  match lines q with
  | [] => ([Sleep 60], st)
  | _ :: _ => ([Sleep (delay_seconds (config_data st))],
               with_queue st (advance q))
  end.

(** One pass through the body of [while is_posting].  An index outside
    [lines] raises [IndexError], which the [except] answers by waiting. *)
Definition loop_iteration (client_post : str → post_data → post_reply)
    (now : str) (st : state) : list effect * state :=
  let q := queue_data st in
  match lines q with
  | [] => ([Sleep 60], st)
  | _ :: _ =>
      match lines q !! current_index q with
      | None => ([Sleep 60], st)
      | Some current_line =>
          let sent := post_to_facebook client_post (config_data st) current_line in
          let done := finish_cycle current_line sent.2 now st in
          (sent.1 ++ done.1, done.2)
      end
  end.

Inductive loop_status := LoopExited | LoopWaiting.

(** [posting_loop] run for as many iterations as the world has answers
    for: each element is the behaviour of [client.post] and the clock
    during one iteration.  [LoopExited]: the [while] test failed;
    [LoopWaiting]: the loop is still alive after the last wait. *)
Fixpoint posting_loop (world : list ((str → post_data → post_reply) * str))
    (st : state) : list effect * state * loop_status :=
  if is_posting st then
    match world with
    | [] => ([], st, LoopWaiting)
    | (client_post, now) :: world =>
        let it := loop_iteration client_post now st in
        let rest := posting_loop world it.2 in
        (it.1 ++ rest.1.1, rest.1.2, rest.2)
    end
  else ([], st, LoopExited).

(** *** Routes *)

(** [config_data['mention_name'] = name] *)
Definition with_mention_name (config : PostConfig) (name : option str)
  : PostConfig :=
  {| fb_token := fb_token config;
     page_id := page_id config;
     delay_minutes := delay_minutes config;
     mention_uid := mention_uid config;
     mention_name := name;
     prefix_text := prefix_text config |}.

Definition save_config (client_get : str → str → get_reply)
    (config : PostConfig) (st : state) : outcome status_message :=
  let lookup :=
    if truthy (mention_uid config) && negb (truthy (mention_name config))
    then get_facebook_user_name client_get (text_of (mention_uid config))
           (fb_token config)
    else ([], None) in
  let config :=
    if truthy lookup.2 then with_mention_name config lookup.2 else config in
  {| answer := Ok {| sm_status := lit "success";
                     sm_message := lit "Configuration saved" |};
     effects := lookup.1;
     final := with_config st (Some config) |}.

(** [get_config]: the presence flag and the stored config. *)
Definition get_config (st : state) : bool * option PostConfig :=
  match config_data st with
  | Some c => (true, Some c)
  | None => (false, None)
  end.

(** [content.decode('utf-8')] *)
Inductive decoded :=
| Text (text : str)
| UnicodeDecodeError.

(** [[line.strip() for line in text.split('\n') if line.strip()]] *)
Definition parse_lines (text : str) : list str :=
  map strip (List.filter (λ line, nonempty (strip line)) (split LF text)).

Definition upload_file (filename : str) (content : decoded) (st : state)
  : outcome upload_body :=
  if negb (endswith filename (lit ".txt")) then
    {| answer := HTTPException 400 (lit "Only .txt files are allowed");
       effects := []; final := st |}
  else
    match content with
    | UnicodeDecodeError =>
        {| answer := InternalError; effects := []; final := st |}
    | Text text =>
        let lines := parse_lines text in
        match lines with
        | [] => {| answer := HTTPException 400 (lit "File is empty");
                   effects := []; final := st |}
        | _ :: _ =>
            {| answer :=
                 Ok {| ub_status := lit "success";
                       ub_message :=
                         lit "File uploaded successfully. "
                           ++ Str.of_nat (length lines)
                           ++ lit " lines loaded.";
                       total_lines := length lines |};
               effects := [];
               final := with_queue st {| lines := lines; current_index := 0 |} |}
        end
    end.

Definition ConfigMissing {A} : reply A :=
  HTTPException 400 (lit "Please configure settings first").

Definition QueueEmpty {A} : reply A :=
  HTTPException 400 (lit "Please upload a post file first").

Definition AlreadyRunning : reply status_message :=
  Ok {| sm_status := lit "already_running";
        sm_message := lit "Posting is already running" |}.

Definition PostingStarted : reply status_message :=
  Ok {| sm_status := lit "success"; sm_message := lit "Posting started" |}.

Definition NotRunning : reply status_message :=
  Ok {| sm_status := lit "not_running";
        sm_message := lit "Posting is not running" |}.

Definition PostingStopped : reply status_message :=
  Ok {| sm_status := lit "success"; sm_message := lit "Posting stopped" |}.

(** [start_posting]; [t] is the task [asyncio.create_task] returns. *)
Definition start_posting (t : task) (st : state) : outcome status_message :=
  if is_posting st then
    {| answer := AlreadyRunning; effects := []; final := st |}
  else
    match config_data st with
    | None => {| answer := ConfigMissing; effects := []; final := st |}
    | Some _ =>
        match lines (queue_data st) with
        | [] => {| answer := QueueEmpty; effects := []; final := st |}
        | _ :: _ =>
            {| answer := PostingStarted;
               effects := [CreateTask t];
               final := with_run st (Some t) true |}
        end
    end.

Definition stop_posting (st : state) : outcome status_message :=
  if is_posting st then
    match posting_task st with
    | Some t =>
        {| answer := PostingStopped;
           effects := [CancelTask t; AwaitTask t];
           final := with_run st None false |}
    | None =>
        {| answer := PostingStopped; effects := [];
           final := with_run st None false |}
    end
  else
    {| answer := NotRunning; effects := []; final := st |}.

Definition get_status (st : state) : PostStatus :=
  let q := queue_data st in
  {| is_running := is_posting st;
     current_line := match lines q with
                     | [] => 0
                     | _ :: _ => current_index q + 1
                     end;
     ps_total_lines := length (lines q) |}.

Definition get_history (st : state) : list history_entry := history_data st.

(** ** Sample data *)

Definition sample_config : PostConfig :=
  {| fb_token := lit "T";
     page_id := Some [];
     delay_minutes := 1;
     mention_uid := Some [];
     mention_name := Some [];
     prefix_text := Some [] |}.

(** A network on which every call raises. *)
Definition no_get : str → str → get_reply := λ _ _, GetRaised.
Definition no_post : str → post_data → post_reply :=
  λ _ _, PostRaised (lit "timed out").

(** A network on which every publish call is accepted. *)
Definition ok_post : str → post_data → post_reply :=
  λ _ _, PostResponse 200 [].

(** Config [{token: T, delay_minutes: 1}] and the queue [hello], [world]. *)
Definition configured : state :=
  final (upload_file (lit "posts.txt")
           (Text (lit "hello" ++ [LF] ++ lit "world" ++ [LF]))
           (final (save_config no_get sample_config initial))).

Definition started : state := final (start_posting 1 configured).

(** A config with a page, a delay of seven minutes, a mention and a
    prefix. *)
Definition page_config : PostConfig :=
  {| fb_token := lit "T";
     page_id := Some (lit "42");
     delay_minutes := 7;
     mention_uid := Some (lit "7");
     mention_name := Some (lit "Al");
     prefix_text := Some (lit "> ") |}.

(** The scheduler running with [page_config] on an upload whose lines
    carry white space at their ends. *)
Definition page_started : state :=
  final (start_posting 1
    (final (upload_file (lit "posts.txt")
              (Text ([32%N] ++ lit "hello" ++ [32%N; LF] ++ lit "world"
                       ++ [9%N; 13%N; LF]))
              (final (save_config no_get page_config initial))))).

(** [started] after one iteration: the cursor is at 1. *)
Definition advanced_once : state :=
  (loop_iteration no_post (lit "t0") started).2.

(** ** Reachable states *)

(** One change of the globals, with requests served one at a time: a
    route runs to completion, or the loop of a running scheduler does one
    iteration.  [step_finish_cycle] is an iteration whose publish call
    was in flight while a route changed the globals: it finishes on the
    new state with the entry it had read before.  [stop_posting] and
    [save_config] themselves wait in the middle (for the cancelled task,
    for the lookup); a request served during such a wait is not a step
    of this relation, and of the facts of [wf] below only the two about
    the task handle rely on that. *)
Inductive step : state → state → Prop :=
| step_save_config client_get config st :
    step st (final (save_config client_get config st))
| step_upload_file filename content st :
    step st (final (upload_file filename content st))
| step_start_posting t st :
    step st (final (start_posting t st))
| step_stop_posting st :
    step st (final (stop_posting st))
| step_loop_iteration client_post now st :
    is_posting st = true →
    step st (loop_iteration client_post now st).2
| step_finish_cycle current_line result now st :
    is_posting st = true →
    step st (finish_cycle current_line result now st).2.

Definition reachable (st : state) : Prop := rtc step initial st.

(** What every reachable state satisfies. *)
Record wf (st : state) : Prop := mkWf {
  wf_history : length (history_data st) ≤ 50;
  wf_cursor : lines (queue_data st) ≠ [] →
              current_index (queue_data st) < length (lines (queue_data st));
  wf_running_config : is_posting st = true → is_Some (config_data st);
  wf_running_queue : is_posting st = true → lines (queue_data st) ≠ [];
  wf_running_task : is_posting st = true → is_Some (posting_task st);
  wf_stopped_task : is_posting st = false → posting_task st = None
}.

(** ** Notions used in the statements *)

Definition is_sleep (e : effect) : bool :=
  match e with Sleep _ => true | _ => false end.

Definition is_http_post (e : effect) : bool :=
  match e with HttpPost _ _ => true | _ => false end.

(** What a history entry says was published, and from which position. *)
Definition published (e : history_entry) : str * nat :=
  (content e, line_number e).

(** The entry under the cursor after [j] advances, with its 1-based
    position. *)
Definition upcoming (q : queue) (j : nat) : str * nat :=
  let i := (current_index q + j) mod length (lines q) in
  (default ([] : str) (lines q !! i), i + 1).

(** A queue entry as an upload leaves it: not empty, free of line feeds
    and with no white space at either end. *)
Definition clean (entry : str) : Prop :=
  entry ≠ [] ∧ (LF ∉ entry) ∧ strip entry = entry.



(** A status an entry of the log can carry. *)
Definition known_status (s : str) : Prop :=
  s = lit "success" ∨ s = lit "failed".

(** ** Lemmas on strings *)

Lemma split_nonempty sep s : split sep s ≠ [].
Proof.
  destruct s as [|c r]; simpl; [done|].
  destruct (c =? sep)%N; [done|]. by destruct (split sep r).
Qed.

(** The pieces of a split hold no separator. *)
Lemma split_no_sep sep s : Forall (λ w, sep ∉ w) (split sep s).
Proof.
  induction s as [|c r IH]; simpl.
  - repeat constructor. by intros ?%elem_of_nil.
  - destruct (N.eqb_spec c sep) as [->|Hne].
    + constructor; [by intros ?%elem_of_nil | done].
    + pose proof (split_nonempty sep r) as Hr.
      destruct (split sep r) as [|w ws]; [done|].
      inversion IH; subst. constructor; [|done].
      intros [?|?]%elem_of_cons; [congruence | done].
Qed.


Lemma lstrip_spec s :
  ∃ pre, s = pre ++ lstrip s ∧ Forall (λ c, is_space c = true) pre
         ∧ (∀ c r, lstrip s = c :: r → is_space c = false).
Proof.
  induction s as [|c r (pre & Heq & Hpre & Hhd)]; simpl.
  - exists []. by split_and!.
  - destruct (is_space c) eqn:Hc.
    + exists (c :: pre). split_and!; [simpl; by rewrite <- Heq | by constructor | done].
    + exists []. split_and!; [done | done |]. by intros ?? [= <- <-].
Qed.


Lemma lstrip_nil_all_space s :
  lstrip s = [] → Forall (λ c, is_space c = true) s.
Proof.
  induction s as [|c r IH]; simpl; [done|].
  destruct (is_space c) eqn:Hc; [|done]. by constructor; [|apply IH].
Qed.

(** [strip] removes a run of white space at each end and nothing else. *)
Lemma strip_spec s :
  ∃ pre post,
    s = pre ++ strip s ++ post
    ∧ Forall (λ c, is_space c = true) pre
    ∧ Forall (λ c, is_space c = true) post
    ∧ (∀ c r, strip s = c :: r → is_space c = false)
    ∧ (∀ c r, strip s = r ++ [c] → is_space c = false).
Proof.
  destruct (lstrip_spec s) as (pre & Hs & Hpre & Hhd).
  destruct (lstrip_spec (rev (lstrip s))) as (tsop & Hr & Hpost & Hlast).
  exists pre, (rev tsop). unfold strip, rstrip.
  assert (Hl : lstrip s = rev (lstrip (rev (lstrip s))) ++ rev tsop).
  { rewrite <- rev_app_distr, <- Hr. by rewrite rev_involutive. }
  split_and!.
  - by rewrite <- Hl.
  - done.
  - apply Forall_forall. intros c Hin. rewrite list_elem_of_In, <- in_rev in Hin.
    rewrite Forall_forall in Hpost. apply Hpost. by apply list_elem_of_In.
  - intros c r Heq. rewrite Heq in Hl. eapply Hhd. by rewrite Hl.
  - intros c r Heq. apply (f_equal (@rev _)) in Heq.
    rewrite rev_involutive, rev_app_distr in Heq. simpl in Heq. eauto.
Qed.




Example is_space_sample :
  map is_space [9; 10; 13; 14; 27; 28; 32; 97; 133; 160; 8203; 12288]%N
  = [true; true; true; false; false; true; true; false; true; true; false;
     true].
Proof. reflexivity. Qed.

Example strip_sample :
  strip ([32; 9]%N ++ lit "a b" ++ [13; 32]%N) = lit "a b".
Proof. reflexivity. Qed.

Example split_sample :
  split LF (lit "a" ++ [LF; LF] ++ lit "b" ++ [LF]) = [lit "a"; []; lit "b"; []].
Proof. reflexivity. Qed.

Example endswith_sample :
  endswith (lit "posts.txt") (lit ".txt") = true
  ∧ endswith (lit "posts.txt.bak") (lit ".txt") = false
  ∧ endswith (lit "txt") (lit ".txt") = false.
Proof. by split_and!. Qed.

(** ** Lemmas on the history log and the cursor *)

Lemma record_cons entry h : record entry h = entry :: take 49 h.
Proof.
  unfold record. simpl length. destruct (Nat.ltb_spec 50 (S (length h))).
  - done.
  - by rewrite take_ge by lia.
Qed.

Lemma length_record entry h : length (record entry h) ≤ 50.
Proof. rewrite record_cons. simpl. rewrite length_take. lia. Qed.

Lemma record_all_take entries h :
  length h ≤ 50 → record_all entries h = take 50 (rev entries ++ h).
Proof.
  revert h. induction entries as [|e es IH]; intros h Hh; simpl.
  - by rewrite take_ge.
  - unfold record_all in *. simpl. rewrite IH by apply length_record.
    rewrite record_cons, <- app_assoc. simpl.
    destruct (Nat.le_gt_cases 50 (length (rev es))) as [Hes|Hes].
    + by rewrite !take_app_le by lia.
    + rewrite !take_app_ge by lia.
      f_equal. remember (50 - length (rev es)) as k eqn:Hk.
      destruct k as [|k]; [lia|]. simpl. f_equal.
      rewrite take_take. f_equal. lia.
Qed.

Lemma advance_lines q : lines (advance q) = lines q.
Proof. done. Qed.

Lemma advance_in_range q :
  lines q ≠ [] → current_index (advance q) < length (lines q).
Proof.
  intros Hq. simpl. apply Nat.mod_upper_bound.
  by destruct (lines q).
Qed.

Lemma iter_advance k q :
  Nat.iter k advance q =
  match k with
  | 0 => q
  | S _ => {| lines := lines q;
              current_index := (current_index q + k) mod length (lines q) |}
  end.
Proof.
  induction k as [|k IH]; [done|].
  simpl Nat.iter. rewrite IH. destruct k as [|k].
  - unfold advance. by rewrite Nat.add_1_r.
  - unfold advance. simpl lines. simpl current_index. f_equal.
    rewrite Nat.Div0.add_mod_idemp_l. f_equal. lia.
Qed.

Lemma iter_advance_length q :
  current_index q < length (lines q) →
  Nat.iter (length (lines q)) advance q = q.
Proof.
  intros Hi. rewrite iter_advance. destruct q as [ls i]. simpl in *.
  destruct ls as [|l ls]; [simpl in Hi; lia|]. simpl length. f_equal.
  rewrite <- (Nat.mul_1_l (S (length ls))) at 1.
  rewrite Nat.Div0.mod_add. apply Nat.mod_small. simpl in Hi. lia.
Qed.

(** ** The invariant *)

Lemma wf_initial : wf initial.
Proof. split; simpl; try done; lia. Qed.

Lemma wf_finish_cycle current_line result now st :
  is_posting st = true → wf st → wf (finish_cycle current_line result now st).2.
Proof.
  intros Hrun [Hh Hc Hrc Hrq Hrt Hst]. specialize (Hrq Hrun).
  unfold finish_cycle. destruct (lines (queue_data st)) eqn:Hl; [done|].
  split; simpl; rewrite ?Hl; try done.
  - apply length_record.
  - intros _. apply Nat.mod_upper_bound. done.
Qed.

Lemma wf_loop_iteration client_post now st :
  is_posting st = true → wf st → wf (loop_iteration client_post now st).2.
Proof.
  intros Hrun Hwf. unfold loop_iteration.
  destruct (lines (queue_data st)); [done|].
  destruct (_ !! _); [|done]. simpl. by apply wf_finish_cycle.
Qed.

Lemma wf_save_config client_get config st :
  wf st → wf (final (save_config client_get config st)).
Proof. intros [Hh Hc Hrc Hrq Hrt Hst]. by split. Qed.

Lemma wf_upload_file filename content st :
  wf st → wf (final (upload_file filename content st)).
Proof.
  intros Hwf. unfold upload_file.
  destruct (negb _); [done|]. destruct content as [text|]; [|done].
  destruct (parse_lines text) eqn:Hp; [done|].
  destruct Hwf as [Hh Hc Hrc Hrq Hrt Hst].
  split; simpl; try done. intros _. lia.
Qed.

Lemma wf_start_posting t st :
  wf st → wf (final (start_posting t st)).
Proof.
  intros Hwf. unfold start_posting.
  destruct (is_posting st) eqn:Hrun; [done|].
  destruct (config_data st) eqn:Hcfg; [|done].
  destruct (lines (queue_data st)) eqn:Hl; [done|].
  destruct Hwf as [Hh Hc Hrc Hrq Hrt Hst].
  rewrite Hl in Hc.
  split; simpl; rewrite ?Hcfg, ?Hl; eauto; done.
Qed.

Lemma wf_stop_posting st :
  wf st → wf (final (stop_posting st)).
Proof.
  intros Hwf. unfold stop_posting.
  destruct (is_posting st) eqn:Hrun; [|done].
  destruct Hwf as [Hh Hc Hrc Hrq Hrt Hst].
  destruct (posting_task st); by split.
Qed.

Lemma wf_step st st' : step st st' → wf st → wf st'.
Proof.
  destruct 1; eauto using wf_save_config, wf_upload_file, wf_start_posting,
    wf_stop_posting, wf_loop_iteration, wf_finish_cycle.
Qed.

Lemma reachable_wf st : reachable st → wf st.
Proof.
  unfold reachable. revert st.
  apply (rtc_ind_r (R := step) wf); eauto using wf_initial, wf_step.
Qed.

Lemma reachable_step st st' : reachable st → step st st' → reachable st'.
Proof. unfold reachable. intros. by eapply rtc_r. Qed.

Lemma reachable_configured : reachable configured.
Proof.
  eapply reachable_step; [eapply reachable_step; [apply rtc_refl|]|].
  - apply (step_save_config no_get sample_config).
  - apply step_upload_file.
Defined.

Lemma reachable_started : reachable started.
Proof.
  eapply reachable_step; [apply reachable_configured | apply step_start_posting].
Defined.

Lemma reachable_page_started : reachable page_started.
Proof.
  eapply reachable_step;
    [eapply reachable_step; [eapply reachable_step; [apply rtc_refl|]|]|].
  - apply (step_save_config no_get page_config).
  - apply step_upload_file.
  - apply step_start_posting.
Defined.

Lemma reachable_advanced_once : reachable advanced_once.
Proof.
  eapply reachable_step; [apply reachable_started|].
  apply (step_loop_iteration no_post (lit "t0")). reflexivity.
Defined.

(** ** Start *)

(** C1, as stated, fails: in the initial state the queue has no entries,
    yet [start_posting] answers with the missing-config error and not
    with the empty-queue one, because the config is tested first. *)
Lemma start_posting_initial_not_QueueEmpty :
  reachable initial
  ∧ lines (queue_data initial) = []
  ∧ answer (start_posting 0 initial) = ConfigMissing
  ∧ answer (start_posting 0 initial) ≠ QueueEmpty.
Proof. split_and!; [apply rtc_refl | done | done | by intros [=]]. Qed.

(** C1, amended: in every state the server can reach, [start_posting]
    fails with the missing-config error when no config has been set; it
    fails with the empty-queue error when a config is set and the queue
    has no entries; neither failure changes the state or issues an
    effect.  When a config is set, the queue is non-empty and the
    scheduler is not running, it creates the loop task, keeps its handle,
    sets the running flag and answers success. *)
Theorem start_posting_guards t st :
  reachable st →
  (config_data st = None →
   start_posting t st =
     {| answer := ConfigMissing; effects := []; final := st |})
  ∧ (is_Some (config_data st) → lines (queue_data st) = [] →
     start_posting t st =
       {| answer := QueueEmpty; effects := []; final := st |})
  ∧ (is_Some (config_data st) → lines (queue_data st) ≠ [] →
     is_posting st = false →
     start_posting t st =
       {| answer := PostingStarted; effects := [CreateTask t];
          final := with_run st (Some t) true |}
     ∧ is_posting (final (start_posting t st)) = true
     ∧ posting_task (final (start_posting t st)) = Some t).
Proof.
  intros Hwf%reachable_wf. unfold start_posting. split_and!.
  - intros Hcfg. destruct (is_posting st) eqn:Hrun.
    + destruct (wf_running_config _ Hwf Hrun) as [c Hc]. congruence.
    + by rewrite Hcfg.
  - intros [c Hc] Hl. destruct (is_posting st) eqn:Hrun.
    + by destruct (wf_running_queue _ Hwf Hrun).
    + by rewrite Hc, Hl.
  - intros [c Hc] Hl ->. rewrite Hc. by destruct (lines (queue_data st)).
Qed.

Lemma start_posting_guards_witness :
  start_posting 1 configured =
    {| answer := PostingStarted; effects := [CreateTask 1];
       final := with_run configured (Some 1) true |}
  ∧ start_posting 0 initial =
      {| answer := ConfigMissing; effects := []; final := initial |}.
Proof.
  split.
  - refine (proj1 (proj2 (proj2 (start_posting_guards 1 configured
              reachable_configured)) _ _ _)).
    + vm_compute. eexists. reflexivity.
    + vm_compute. discriminate.
    + reflexivity.
  - refine (proj1 (start_posting_guards 0 initial (rtc_refl _ _)) _).
    reflexivity.
Defined.

(** ** The cursor *)

(** C2: on a non-empty queue one advance leaves the cursor inside
    [0 ≤ index < length] and the entries as they were, and from a cursor
    inside that range as many advances as there are entries bring the
    queue back to where it started. *)
Theorem advance_cyclic q :
  lines q ≠ [] →
  current_index (advance q) = (current_index q + 1) mod length (lines q)
  ∧ current_index (advance q) < length (lines q)
  ∧ lines (advance q) = lines q
  ∧ (current_index q < length (lines q) →
     Nat.iter (length (lines q)) advance q = q).
Proof.
  intros Hq. split_and!; [done | by apply advance_in_range | done |].
  apply iter_advance_length.
Qed.

Lemma advance_cyclic_witness :
  Nat.iter 2 advance (queue_data configured) = queue_data configured.
Proof.
  refine (proj2 (proj2 (proj2 (advance_cyclic (queue_data configured) _))) _).
  - vm_compute. discriminate.
  - vm_compute. lia.
Defined.

(** ** The history log *)

(** C3: [record] puts the new entry at the front and never leaves more
    than 50 entries; on a log of 50 it drops the last (oldest) one and
    keeps the others in order, so after 51 recordings into an empty log
    the log is the last 50 recorded, newest first, and the first one
    recorded is gone; no state the server can reach has a longer log. *)
Theorem history_log_bounded :
  (∀ entry h,
     length (record entry h) ≤ 50 ∧ head (record entry h) = Some entry)
  ∧ (∀ entry h oldest,
       length h = 49 → record entry (h ++ [oldest]) = entry :: h)
  ∧ (∀ first rest,
       length rest = 50 →
       record_all (first :: rest) [] = rev rest
       ∧ head (record_all (first :: rest) []) = last rest
       ∧ (first ∉ rest → first ∉ record_all (first :: rest) []))
  ∧ (∀ st, reachable st → length (history_data st) ≤ 50).
Proof.
  split_and!.
  - intros entry h. split; [apply length_record | by rewrite record_cons].
  - intros entry h oldest Hh. rewrite record_cons. f_equal.
    by rewrite take_app_length' by done.
  - intros first rest Hrest.
    assert (Hall : record_all (first :: rest) [] = rev rest).
    { rewrite record_all_take by (simpl; lia). simpl.
      rewrite app_nil_r, take_app_length'; [done|]. by rewrite length_rev. }
    rewrite Hall. split_and!; [done | |].
    + rewrite rev_alt. apply (head_reverse rest).
    + intros Hin Hin'. apply Hin.
      rewrite list_elem_of_In in *. by apply in_rev.
  - intros st Hst. apply wf_history, reachable_wf, Hst.
Qed.

Lemma history_log_bounded_witness :
  let entry n := {| content := lit "hello"; line_number := n;
                    status := lit "success"; error_message := None;
                    posted_at := lit "t" |} in
  length (history_data advanced_once) ≤ 50
  ∧ record_all (entry 1 :: replicate 50 (entry 2)) []
    = rev (replicate 50 (entry 2)).
Proof.
  intros entry. split.
  - exact (proj2 (proj2 (proj2 history_log_bounded)) advanced_once
             reachable_advanced_once).
  - exact (proj1 (proj1 (proj2 (proj2 history_log_bounded))
                    (entry 1) (replicate 50 (entry 2)) eq_refl)).
Defined.

(** ** A cycle whose publish call fails *)

Lemma finish_cycle_nonempty current_line result now st :
  lines (queue_data st) ≠ [] →
  finish_cycle current_line result now st =
    ([Sleep (delay_seconds (config_data st))],
     with_queue
       (with_history st
          (record {| content := current_line;
                     line_number := current_index (queue_data st) + 1;
                     status := if result.1 then lit "success" else lit "failed";
                     error_message := result.2;
                     posted_at := now |} (history_data st)))
       (advance (queue_data st))).
Proof. intros Hq. unfold finish_cycle. by destruct (lines (queue_data st)). Qed.

Lemma loop_iteration_publishes client_post now st current_line :
  lines (queue_data st) !! current_index (queue_data st) = Some current_line →
  loop_iteration client_post now st =
    let sent := post_to_facebook client_post (config_data st) current_line in
    let done := finish_cycle current_line sent.2 now st in
    (sent.1 ++ done.1, done.2).
Proof.
  intros Hline. unfold loop_iteration. rewrite Hline.
  by destruct (lines (queue_data st)).
Qed.

(** While nothing else touches the globals, each iteration of a running
    loop on a non-empty queue is one advance of the cursor, and the loop
    never leaves its [while]. *)
Lemma posting_loop_cursor world st :
  is_posting st = true →
  current_index (queue_data st) < length (lines (queue_data st)) →
  queue_data (posting_loop world st).1.2 =
    Nat.iter (length world) advance (queue_data st)
  ∧ (posting_loop world st).2 = LoopWaiting.
Proof.
  revert st. induction world as [|[client_post now] world IH];
    intros st Hrun Hi; simpl; rewrite Hrun; [done|].
  destruct (lookup_lt_is_Some_2 _ _ Hi) as [current_line Hline].
  assert (Hq : lines (queue_data st) ≠ []).
  { intros Hnil. by rewrite Hnil in Hline. }
  rewrite (loop_iteration_publishes _ _ _ _ Hline). cbv zeta.
  rewrite finish_cycle_nonempty by done. cbn [fst snd].
  match goal with |- context [posting_loop world ?s] =>
    destruct (IH s) as [IHq IHs];
      [done | exact (advance_in_range (queue_data st) Hq) |];
    rewrite IHq, IHs end.
  split; [|done]. symmetry. exact (Nat.iter_succ_r _ _ _).
Qed.

(** As many iterations as the queue has entries bring the cursor back. *)
Lemma posting_loop_full_turn world st :
  is_posting st = true →
  current_index (queue_data st) < length (lines (queue_data st)) →
  length world = length (lines (queue_data st)) →
  queue_data (posting_loop world st).1.2 = queue_data st.
Proof.
  intros Hrun Hi Hlen.
  rewrite (proj1 (posting_loop_cursor world st Hrun Hi)), Hlen.
  by apply iter_advance_length.
Qed.

(** The scenario of two entries: the first cycle publishes hello at
    position 1, the second world at position 2, and the cursor is back
    at 0. *)
Example two_cycles :
  let run := posting_loop [(ok_post, lit "t1"); (ok_post, lit "t2")] started in
  run.1.1 =
    [HttpPost (graph ++ lit "me/feed")
       {| message := lit "hello"; access_token := lit "T"; tags := None |};
     Sleep 60;
     HttpPost (graph ++ lit "me/feed")
       {| message := lit "world"; access_token := lit "T"; tags := None |};
     Sleep 60]
  ∧ history_data run.1.2 =
      [ {| content := lit "world"; line_number := 2; status := lit "success";
           error_message := None; posted_at := lit "t2" |};
        {| content := lit "hello"; line_number := 1; status := lit "success";
           error_message := None; posted_at := lit "t1" |} ]
  ∧ current_index (queue_data run.1.2) = 0
  ∧ run.2 = LoopWaiting.
Proof. by split_and!. Qed.

(** C4: when the scheduler is running, the cursor points at an entry and
    the publish call for it returns failure with a description, the
    iteration records at the front of the log an entry with the content,
    the 1-based position, status failed and that description, advances
    the cursor cyclically, leaves the running flag set and ends in a wait
    of sixty times the [delay_minutes] of the stored config (of 300
    seconds on an empty config); the loop then goes on with the next
    iteration instead of exiting. *)
Theorem failed_publish_cycle client_post now st current_line description :
  is_posting st = true →
  lines (queue_data st) !! current_index (queue_data st) = Some current_line →
  (post_to_facebook client_post (config_data st) current_line).2
    = (false, Some description) →
  let it := loop_iteration client_post now st in
  history_data it.2 =
    {| content := current_line;
       line_number := current_index (queue_data st) + 1;
       status := lit "failed";
       error_message := Some description;
       posted_at := now |} :: take 49 (history_data st)
  ∧ queue_data it.2 = advance (queue_data st)
  ∧ lines (queue_data it.2) = lines (queue_data st)
  ∧ current_index (queue_data it.2) =
      (current_index (queue_data st) + 1) mod length (lines (queue_data st))
  ∧ it.1 = (post_to_facebook client_post (config_data st) current_line).1
             ++ [Sleep (match config_data st with
                        | Some c => delay_minutes c * 60
                        | None => 5 * 60
                        end)%Z]
  ∧ is_posting it.2 = true
  ∧ config_data it.2 = config_data st
  ∧ posting_loop [(client_post, now)] st = (it.1, it.2, LoopWaiting)
  ∧ (∀ next_post next_now world,
       posting_loop ((client_post, now) :: (next_post, next_now) :: world) st =
         let next := loop_iteration next_post next_now it.2 in
         let rest := posting_loop world next.2 in
         (it.1 ++ next.1 ++ rest.1.1, rest.1.2, rest.2)).
Proof.
  intros Hrun Hline Hfail it.
  assert (Hq : lines (queue_data st) ≠ []).
  { intros Hnil. by rewrite Hnil in Hline. }
  assert (Hit : it =
    ((post_to_facebook client_post (config_data st) current_line).1
       ++ [Sleep (delay_seconds (config_data st))],
     with_queue
       (with_history st
          (record {| content := current_line;
                     line_number := current_index (queue_data st) + 1;
                     status := lit "failed";
                     error_message := Some description;
                     posted_at := now |} (history_data st)))
       (advance (queue_data st)))).
  { subst it. rewrite (loop_iteration_publishes _ _ _ _ Hline). cbv zeta.
    rewrite finish_cycle_nonempty by done. by rewrite Hfail. }
  assert (Hrun' : is_posting it.2 = true) by by rewrite Hit.
  split_and!; try by rewrite Hit.
  - rewrite Hit. simpl. apply record_cons.
  - rewrite Hit. cbn [fst]. unfold delay_seconds. by destruct (config_data st).
  - simpl. rewrite Hrun. fold it. rewrite Hrun'. simpl. by rewrite app_nil_r.
  - intros next_post next_now world. simpl. rewrite Hrun. fold it.
    by rewrite Hrun'.
Qed.

Lemma failed_publish_cycle_witness :
  let it := loop_iteration no_post (lit "2024-01-01T00:00:00") page_started in
  history_data it.2 =
    [ {| content := lit "hello"; line_number := 1; status := lit "failed";
         error_message := Some (lit "timed out");
         posted_at := lit "2024-01-01T00:00:00" |} ]
  ∧ current_index (queue_data it.2) = 1
  ∧ it.1 = [HttpPost (lit "https://graph.facebook.com/v21.0/42/feed")
              {| message := lit "@[7:Al] > hello"; access_token := lit "T";
                 tags := Some (lit "7") |};
            Sleep 420].
Proof.
  intros it.
  destruct (failed_publish_cycle no_post (lit "2024-01-01T00:00:00")
              page_started (lit "hello") (lit "timed out"))
    as (Hh & _ & _ & Hc & He & _); [reflexivity | reflexivity | reflexivity |].
  fold it in Hh, Hc, He. rewrite Hh, Hc, He. split_and!; reflexivity.
Defined.

(** ** Upload *)

Lemma parse_lines_filter_map text :
  parse_lines text = List.filter nonempty (map strip (split LF text)).
Proof.
  unfold parse_lines. induction (split LF text) as [|line ls IH]; simpl; [done|].
  destruct (nonempty (strip line)); simpl; by rewrite IH.
Qed.

Lemma nonempty_true (s : str) : nonempty s = true ↔ s ≠ [].
Proof. by destruct s. Qed.

Lemma elem_of_parse_lines text entry :
  entry ∈ parse_lines text
  ↔ entry ≠ [] ∧ ∃ line, line ∈ split LF text ∧ entry = strip line.
Proof.
  rewrite parse_lines_filter_map, list_elem_of_In, filter_In, in_map_iff.
  rewrite nonempty_true. split.
  - intros [(line & <- & Hin) Hne]. split; [done|].
    exists line. by rewrite list_elem_of_In.
  - intros [Hne (line & Hin & ->)]. split; [|done].
    exists line. by rewrite <- list_elem_of_In.
Qed.










(** C6: an upload that is not answered with success leaves every global
    as it was, the entries and the cursor of the queue among them; this
    covers the wrong file type (400, Only .txt files are allowed) and the
    upload with no entry left after trimming (400, File is empty). *)
Theorem rejected_upload_keeps_queue filename content st :
  let up := upload_file filename content st in
  (endswith filename (lit ".txt") = false →
   up = {| answer := HTTPException 400 (lit "Only .txt files are allowed");
           effects := []; final := st |})
  ∧ (∀ text, endswith filename (lit ".txt") = true → content = Text text →
       parse_lines text = [] →
       up = {| answer := HTTPException 400 (lit "File is empty");
               effects := []; final := st |})
  ∧ ((∀ body, answer up ≠ Ok body) →
     final up = st
     ∧ lines (queue_data (final up)) = lines (queue_data st)
     ∧ current_index (queue_data (final up)) = current_index (queue_data st)).
Proof.
  intros up. subst up. unfold upload_file. split_and!.
  - by intros ->.
  - by intros text -> -> ->.
  - destruct (negb _); [done|]. destruct content as [text|]; [|done].
    destruct (parse_lines text); [done|]. intros H. by destruct (H _ eq_refl).
Qed.

Lemma rejected_upload_keeps_queue_witness :
  final (upload_file (lit "posts.csv") (Text (lit "new")) started) = started
  ∧ final (upload_file (lit "posts.txt") (Text [LF; LF]) started) = started.
Proof.
  split.
  - refine (proj1 (proj2 (proj2
              (rejected_upload_keeps_queue (lit "posts.csv") _ started)) _)).
    intros body. vm_compute. discriminate.
  - refine (proj1 (proj2 (proj2
              (rejected_upload_keeps_queue (lit "posts.txt") _ started)) _)).
    intros body. vm_compute. discriminate.
Defined.

(** ** Stop *)



(** ** Message composition *)

Lemma get_Some key c : get key (Some c) = key c.
Proof. done. Qed.

(** C8: for a stored config the publish call sends one POST, to the feed
    of the configured page when a page id is present and to the me feed
    otherwise, whose message is the entry with the prefix in front
    exactly when the prefix is non-empty and, when a mention uid is set,
    with the mention marker and a space in front of that: the uid in
    at-brackets, followed by a colon and the display name when the name
    is known. *)
Theorem post_to_facebook_request client_post c text :
  let config := Some c in
  (∃ tags,
     (post_to_facebook client_post config text).1 =
       [HttpPost (feed_url config)
          {| message := composed_message config text;
             access_token := fb_token c; tags := tags |}])
  ∧ (∀ prefix, prefix_text c = Some prefix → prefix ≠ [] →
       prefixed_message config text = prefix ++ text)
  ∧ (prefix_text c = None ∨ prefix_text c = Some [] →
     prefixed_message config text = text)
  ∧ (mention_uid c = None ∨ mention_uid c = Some [] →
     composed_message config text = prefixed_message config text)
  ∧ (∀ uid, mention_uid c = Some uid → uid ≠ [] →
       mention_name c = None ∨ mention_name c = Some [] →
       composed_message config text =
         lit "@[" ++ uid ++ lit "] " ++ prefixed_message config text)
  ∧ (∀ uid name, mention_uid c = Some uid → uid ≠ [] →
       mention_name c = Some name → name ≠ [] →
       composed_message config text =
         lit "@[" ++ uid ++ lit ":" ++ name ++ lit "] "
           ++ prefixed_message config text)
  ∧ (∀ page, page_id c = Some page → page ≠ [] →
       feed_url config = graph ++ page ++ lit "/feed")
  ∧ (page_id c = None ∨ page_id c = Some [] →
     feed_url config = graph ++ lit "me/feed").
Proof.
  intros config. unfold composed_message, prefixed_message, feed_url.
  subst config. rewrite !get_Some. split_and!.
  - eexists. reflexivity.
  - intros prefix -> Hne. by destruct prefix.
  - by intros [-> | ->].
  - by intros [-> | ->].
  - intros uid -> Hne Hname. destruct uid as [|u uid]; [done|].
    replace (truthy (mention_name c)) with false
      by (by destruct Hname as [-> | ->]).
    cbn [truthy nonempty text_of from_option id].
    rewrite <- !app_assoc. reflexivity.
  - intros uid name -> Hu -> Hn.
    destruct uid as [|u uid]; [done|]. destruct name as [|n name]; [done|].
    cbn [truthy nonempty text_of from_option id].
    rewrite <- !app_assoc. reflexivity.
  - intros page -> Hne. by destruct page.
  - by intros [-> | ->].
Qed.

Lemma post_to_facebook_request_witness :
  let c := {| fb_token := lit "T"; page_id := Some (lit "42");
              delay_minutes := 1; mention_uid := Some (lit "7");
              mention_name := Some (lit "Al");
              prefix_text := Some (lit "> ") |} in
  composed_message (Some c) (lit "hello") = lit "@[7:Al] > hello"
  ∧ feed_url (Some c) = lit "https://graph.facebook.com/v21.0/42/feed".
Proof.
  intros c.
  pose proof (post_to_facebook_request no_post c (lit "hello"))
    as (_ & Hp & _ & _ & _ & Hm & Hu & _).
  split.
  - rewrite (Hm (lit "7") (lit "Al") eq_refl ltac:(discriminate) eq_refl
               ltac:(discriminate)).
    rewrite (Hp (lit "> ") eq_refl ltac:(discriminate)). reflexivity.
  - rewrite (Hu (lit "42") eq_refl ltac:(discriminate)). reflexivity.
Defined.

(** ** Saving the config *)

(** C9: [save_config] always answers success and touches no global but
    the config.  With a mention uid present and the display name absent
    it sends one name lookup for that uid with the config's token: a
    200 response whose name is a non-empty string makes the saved config
    the submitted one with that string as its display name; an exception
    (a timeout among them), a status other than 200, a body without a
    name, a null or empty name or a body that is no JSON object leave the
    config as submitted, its name still absent.  Without a uid, or with a
    name, no lookup is sent and the config is saved as submitted. *)
Theorem save_config_enrichment client_get config st :
  let saved := save_config client_get config st in
  answer saved = Ok {| sm_status := lit "success";
                       sm_message := lit "Configuration saved" |}
  ∧ posting_task (final saved) = posting_task st
  ∧ is_posting (final saved) = is_posting st
  ∧ queue_data (final saved) = queue_data st
  ∧ history_data (final saved) = history_data st
  ∧ (∀ uid, mention_uid config = Some uid → uid ≠ [] →
       mention_name config = None ∨ mention_name config = Some [] →
       let response := client_get (graph ++ uid) (fb_token config) in
       effects saved = [HttpGet (graph ++ uid) (fb_token config)]
       ∧ (∀ name, response = GetResponse 200 (Some (NameString name)) →
            name ≠ [] →
            config_data (final saved) =
              Some {| fb_token := fb_token config;
                      page_id := page_id config;
                      delay_minutes := delay_minutes config;
                      mention_uid := mention_uid config;
                      mention_name := Some name;
                      prefix_text := prefix_text config |})
       ∧ (response = GetRaised
          ∨ (∃ code body, response = GetResponse code body ∧ code ≠ 200%Z)
          ∨ (∃ code, response = GetResponse code (Some NameMissing))
          ∨ (∃ code, response = GetResponse code (Some NameNull))
          ∨ (∃ code, response = GetResponse code (Some (NameString [])))
          ∨ (∃ code, response = GetResponse code None) →
          config_data (final saved) = Some config
          ∧ truthy (mention_name config) = false))
  ∧ (truthy (mention_uid config) = false
     ∨ truthy (mention_name config) = true →
     effects saved = [] ∧ config_data (final saved) = Some config).
Proof.
  intros saved. subst saved. unfold save_config.
  do 5 (split; [done|]). split.
  - intros uid Huid Hne Hname.
    set (response := client_get (graph ++ uid) (fb_token config)).
    assert (Hu : truthy (mention_uid config) = true).
    { rewrite Huid. by destruct uid. }
    assert (Hn : truthy (mention_name config) = false).
    { by destruct Hname as [-> | ->]. }
    rewrite Hu, Hn, Huid. cbn [andb negb text_of from_option id].
    unfold get_facebook_user_name. cbn [fst snd]. fold response.
    split_and!; [done | |].
    + intros name -> Hname'. simpl. destruct name; [done|].
      unfold with_mention_name. by rewrite Huid.
    + intros [-> | [(code & body & -> & Hcode) | [(code & ->) | [(code & ->)
        | [(code & ->) | (code & ->)]]]]]; simpl; split;
        try done; try (by destruct (code =? 200)%Z).
      destruct (Z.eqb_spec code 200); [done|]. done.
  - intros Hskip.
    assert (Hc : truthy (mention_uid config)
                 && negb (truthy (mention_name config)) = false).
    { destruct Hskip as [-> | ->]; [done | by rewrite andb_false_r]. }
    by rewrite Hc.
Qed.

Lemma save_config_enrichment_witness :
  let config := {| fb_token := lit "T"; page_id := None;
                   delay_minutes := 5; mention_uid := Some (lit "7");
                   mention_name := None; prefix_text := None |} in
  let found := λ _ _, GetResponse 200 (Some (NameString (lit "Al"))) in
  config_data (final (save_config found config initial)) =
    Some {| fb_token := lit "T"; page_id := None;
            delay_minutes := 5; mention_uid := Some (lit "7");
            mention_name := Some (lit "Al"); prefix_text := None |}
  ∧ config_data (final (save_config no_get config initial)) =
      Some {| fb_token := lit "T"; page_id := None;
              delay_minutes := 5; mention_uid := Some (lit "7");
              mention_name := None; prefix_text := None |}.
Proof.
  intros config found. split.
  - destruct (save_config_enrichment found config initial)
      as (_ & _ & _ & _ & _ & Hlookup & _).
    destruct (Hlookup (lit "7") eq_refl ltac:(discriminate) (or_introl eq_refl))
      as (_ & Hok & _).
    exact (Hok (lit "Al") eq_refl ltac:(discriminate)).
  - destruct (save_config_enrichment no_get config initial)
      as (_ & _ & _ & _ & _ & Hlookup & _).
    destruct (Hlookup (lit "7") eq_refl ltac:(discriminate) (or_introl eq_refl))
      as (_ & _ & Hfail).
    exact (proj1 (Hfail (or_introl eq_refl))).
Defined.

(** ** What start and stop leave alone *)

Lemma loop_iteration_with_run client_post now st t running :
  loop_iteration client_post now (with_run st t running) =
    ((loop_iteration client_post now st).1,
     with_run (loop_iteration client_post now st).2 t running).
Proof.
  unfold loop_iteration, finish_cycle. simpl.
  destruct (lines (queue_data st)) eqn:Hl; [done|].
  by destruct (_ !! _).
Qed.

(** C10: [start_posting] and [stop_posting] leave the config, the queue
    (entries and cursor) and the history log as they are, whatever they
    answer.  So when a stop is followed by a start that succeeds, the
    scheduler is running on the same queue at the same cursor: its first
    iteration issues the effects, and leaves the queue and the log, that
    the next iteration would have before the stop. *)
Theorem start_stop_frame t st :
  (config_data (final (start_posting t st)) = config_data st
   ∧ queue_data (final (start_posting t st)) = queue_data st
   ∧ history_data (final (start_posting t st)) = history_data st)
  ∧ (config_data (final (stop_posting st)) = config_data st
     ∧ queue_data (final (stop_posting st)) = queue_data st
     ∧ history_data (final (stop_posting st)) = history_data st)
  ∧ (let restarted := start_posting t (final (stop_posting st)) in
     answer restarted = PostingStarted →
     final restarted = with_run st (Some t) true
     ∧ current_index (queue_data (final restarted))
       = current_index (queue_data st)
     ∧ lines (queue_data (final restarted)) = lines (queue_data st)
     ∧ ∀ client_post now,
         loop_iteration client_post now (final restarted) =
           ((loop_iteration client_post now st).1,
            with_run (loop_iteration client_post now st).2 (Some t) true)).
Proof.
  assert (Hstart : ∀ st, final (start_posting t st) = st
                         ∨ final (start_posting t st) = with_run st (Some t) true).
  { intros s. unfold start_posting. destruct (is_posting s); [by left|].
    destruct (config_data s); [|by left].
    destruct (lines (queue_data s)); [by left | by right]. }
  assert (Hstop : final (stop_posting st) = st
                  ∨ final (stop_posting st) = with_run st None false).
  { unfold stop_posting. destruct (is_posting st); [|by left].
    destruct (posting_task st); by right. }
  split; [|split].
  - by destruct (Hstart st) as [-> | ->].
  - by destruct Hstop as [-> | ->].
  - intros restarted Hok.
    assert (Hfinal : final restarted = with_run st (Some t) true).
    { subst restarted. revert Hok. unfold start_posting.
      destruct (is_posting (final (stop_posting st))); [by intros [=]|].
      destruct (config_data (final (stop_posting st))); [|by intros [=]].
      destruct (lines (queue_data (final (stop_posting st)))); [by intros [=]|].
      intros _. simpl. by destruct Hstop as [-> | ->]. }
    rewrite Hfinal. split_and!; try done.
    intros client_post now. apply loop_iteration_with_run.
Qed.

Lemma start_stop_frame_witness :
  let moved := (loop_iteration no_post (lit "t0") started).2 in
  let restarted := start_posting 2 (final (stop_posting moved)) in
  current_index (queue_data (final restarted)) = 1
  ∧ (loop_iteration no_post (lit "t1") (final restarted)).1 =
      [HttpPost (graph ++ lit "me/feed")
         {| message := lit "world"; access_token := lit "T"; tags := None |};
       Sleep 60].
Proof.
  intros moved restarted.
  destruct (proj2 (proj2 (start_stop_frame 2 moved)) eq_refl)
    as (_ & Hc & _ & Hloop).
  fold restarted in Hc, Hloop. rewrite Hc, Hloop. split; reflexivity.
Defined.

(** * Further properties of the code *)

(** ** What one step can change *)

Lemma step_config st st' :
  step st st' →
  config_data st' = config_data st ∨ is_Some (config_data st').
Proof.
  destruct 1 as [cg c st|fn ct st|t st|st|cp now st _|l r now st _].
  - right. simpl. eauto.
  - left. unfold upload_file. destruct (negb _); [done|].
    destruct ct as [text|]; [|done]. by destruct (parse_lines text).
  - left. unfold start_posting. destruct (is_posting st); [done|].
    destruct (config_data st) eqn:Hc; [|done].
    destruct (lines (queue_data st)); simpl; by rewrite Hc.
  - left. unfold stop_posting. destruct (is_posting st); [|done].
    by destruct (posting_task st).
  - left. unfold loop_iteration, finish_cycle.
    destruct (lines (queue_data st)); [done|]. by destruct (_ !! _).
  - left. unfold finish_cycle. by destruct (lines (queue_data st)).
Qed.

Lemma step_lines st st' :
  step st st' →
  lines (queue_data st') = lines (queue_data st)
  ∨ ∃ text, parse_lines text ≠ []
            ∧ queue_data st' = {| lines := parse_lines text; current_index := 0 |}.
Proof.
  destruct 1 as [cg c st|fn ct st|t st|st|cp now st _|l r now st _].
  - by left.
  - unfold upload_file. destruct (negb _); [by left|].
    destruct ct as [text|]; [|by left].
    destruct (parse_lines text) eqn:Hp; [by left|].
    right. exists text. rewrite Hp. by split.
  - left. unfold start_posting. destruct (is_posting st); [done|].
    destruct (config_data st); [|done].
    destruct (lines (queue_data st)) eqn:Hl; simpl; rewrite ?Hl; done.
  - left. unfold stop_posting. destruct (is_posting st); [|done].
    by destruct (posting_task st).
  - left. unfold loop_iteration, finish_cycle.
    destruct (lines (queue_data st)) eqn:Hl; [rewrite ?Hl; done|].
    destruct (_ !! _); simpl; rewrite ?Hl; done.
  - left. unfold finish_cycle.
    destruct (lines (queue_data st)) eqn:Hl; simpl; rewrite ?Hl; done.
Qed.

(** ** Start, twice *)

(** X1: once [start_posting] has succeeded, a further call, whatever task
    it would create, answers already-running, creates no task and leaves
    the state alone: the handle kept is that of the first loop. *)
Theorem start_posting_twice t t' st :
  answer (start_posting t st) = PostingStarted →
  start_posting t' (final (start_posting t st)) =
    {| answer := AlreadyRunning; effects := [];
       final := final (start_posting t st) |}
  ∧ posting_task (final (start_posting t' (final (start_posting t st))))
    = Some t.
Proof.
  intros Hok.
  assert (Hfinal : final (start_posting t st) = with_run st (Some t) true).
  { revert Hok. unfold start_posting.
    destruct (is_posting st); [by intros [=]|].
    destruct (config_data st); [|by intros [=]].
    by destruct (lines (queue_data st)); [intros [=]|]. }
  rewrite Hfinal. done.
Qed.

Lemma start_posting_twice_witness :
  start_posting 2 started =
    {| answer := AlreadyRunning; effects := []; final := started |}
  ∧ posting_task (final (start_posting 2 started)) = Some 1.
Proof. exact (start_posting_twice 1 2 configured eq_refl). Defined.

(** ** The publish call *)

(** X2: [post_to_facebook] reports success exactly when a config is
    stored and the one POST it sent was answered with status 200, and
    then without an error text; every failure carries a description; on
    the empty config nothing is sent and the failure names the missing
    token key. *)
Theorem post_to_facebook_result client_post config text :
  let sent := post_to_facebook client_post config text in
  (sent.2.1 = true
   ↔ ∃ url data body,
       sent.1 = [HttpPost url data]
       ∧ client_post url data = PostResponse 200 body)
  ∧ (sent.2.1 = true → sent.2.2 = None)
  ∧ (sent.2.1 = false → ∃ description, sent.2.2 = Some description)
  ∧ (config = None →
     sent = ([], (false, Some (lit "'fb_token'")))).
Proof.
  intros sent. subst sent. unfold post_to_facebook.
  destruct config as [c|]; simpl.
  - match goal with |- context [client_post ?u ?d] =>
      generalize u d; intros url data end.
    destruct (client_post url data) as [code body|description] eqn:Hreply;
      simpl; [destruct (Z.eqb_spec code 200) as [->|Hcode]; simpl|].
    + split_and!; try done. split; [|done]. intros _.
      exists url, data, body. done.
    + split_and!; try done; [|by eauto].
      split; [done|]. intros (u & d & b & [= <- <-] & Hr). congruence.
    + split_and!; try done; [|by eauto].
      split; [done|]. intros (u & d & b & [= <- <-] & Hr). congruence.
  - split_and!; try done; [|by eauto].
    split; [done|]. by intros (u & d & b & [=] & _).
Qed.

Lemma post_to_facebook_result_witness :
  (post_to_facebook ok_post (Some sample_config) (lit "hello")).2.2 = None
  ∧ ∃ description,
      (post_to_facebook no_post None (lit "hello")).2.2 = Some description.
Proof.
  split.
  - exact (proj1 (proj2 (post_to_facebook_result ok_post (Some sample_config)
                           (lit "hello"))) eq_refl).
  - exact (proj1 (proj2 (proj2 (post_to_facebook_result no_post None
                                  (lit "hello")))) eq_refl).
Defined.

(** X3: the message sent is a decoration that depends on the config
    alone, followed by the entry unchanged; the form carries the config's
    token, and a [tags] field, equal to the mention uid, exactly when the
    uid is set. *)
Theorem post_to_facebook_keeps_entry client_post c text :
  composed_message (Some c) text = composed_message (Some c) [] ++ text
  ∧ ∃ data,
      (post_to_facebook client_post (Some c) text).1 =
        [HttpPost (feed_url (Some c)) data]
      ∧ message data = composed_message (Some c) [] ++ text
      ∧ access_token data = fb_token c
      ∧ (truthy (mention_uid c) = true → tags data = mention_uid c)
      ∧ (truthy (mention_uid c) = false → tags data = None).
Proof.
  assert (Hm : composed_message (Some c) text
               = composed_message (Some c) [] ++ text).
  { unfold composed_message, prefixed_message. rewrite !get_Some.
    destruct (truthy (prefix_text c)), (truthy (mention_uid c)),
      (truthy (mention_name c));
      rewrite ?app_nil_r, <- ?app_assoc; reflexivity. }
  split; [done|]. eexists. split; [reflexivity|]. simpl.
  split_and!; [done | done | |]; by intros ->.
Qed.

(** ** The name lookup *)

(** X4: [get_facebook_user_name] sends one GET for the uid with the
    token; it returns a name only for a response with status 200 whose
    body is a JSON object, the name member if it is a string and the
    empty string if the member is missing; any other response, and any
    exception, give [None]. *)
Theorem get_facebook_user_name_result client_get uid token :
  let url := graph ++ uid in
  (get_facebook_user_name client_get uid token).1 = [HttpGet url token]
  ∧ ∀ name,
      (get_facebook_user_name client_get uid token).2 = Some name
      ↔ client_get url token = GetResponse 200 (Some (NameString name))
        ∨ (client_get url token = GetResponse 200 (Some NameMissing)
           ∧ name = []).
Proof.
  intros url. unfold get_facebook_user_name. fold url. simpl.
  split; [done|]. intros name.
  destruct (client_get url token) as [code body|]; simpl.
  - destruct (Z.eqb_spec code 200) as [->|Hcode].
    + destruct body as [[| |s]|]; split.
      * intros [= <-]. by right.
      * by intros [[=] | [_ ->]].
      * done.
      * by intros [[=] | [[=] _]].
      * intros [= ->]. by left.
      * by intros [[= ->] | [[=] _]].
      * done.
      * by intros [[=] | [[=] _]].
    + split; [done|]. intros [[=] | [[=] _]]; congruence.
  - split; [done|]. by intros [[=] | [[=] _]].
Qed.

Lemma post_to_facebook_keeps_entry_witness :
  composed_message (Some sample_config) (lit "hello")
  = composed_message (Some sample_config) [] ++ lit "hello".
Proof.
  exact (proj1 (post_to_facebook_keeps_entry no_post sample_config (lit "hello"))).
Defined.

Lemma get_facebook_user_name_result_witness :
  (get_facebook_user_name
     (λ _ _, GetResponse 200 (Some (NameString (lit "Al")))) (lit "7")
     (lit "T")).2 = Some (lit "Al").
Proof.
  apply (proj2 (get_facebook_user_name_result
                  (λ _ _, GetResponse 200 (Some (NameString (lit "Al"))))
                  (lit "7") (lit "T"))).
  left. reflexivity.
Defined.

(** ** Reading the config back *)

Lemma lookup_name_cases client_get uid token :
  let reply := client_get (graph ++ uid) token in
  (∀ name, reply = GetResponse 200 (Some (NameString name)) → name ≠ [] →
           (get_facebook_user_name client_get uid token).2 = Some name)
  ∧ ((∀ name, name ≠ [] → reply ≠ GetResponse 200 (Some (NameString name))) →
     truthy (get_facebook_user_name client_get uid token).2 = false).
Proof.
  intros reply. unfold get_facebook_user_name. cbn [snd]. fold reply.
  split.
  - by intros name -> _.
  - intros Hno. destruct reply as [code body|]; [|done].
    destruct (Z.eqb_spec code 200) as [->|Hcode]; [|done].
    destruct body as [[| |[|c name]]|]; try done.
    by destruct (Hno (c :: name)).
Qed.

(** X5: after [save_config] the config read back by [get_config] exists
    and carries the submitted token, page id, delay, mention uid and
    prefix.  Its display name is the submitted one whenever one was
    submitted or no uid was, and also when the lookup did not answer 200
    with a non-empty name string; when it did, the display name is that
    string. *)
Theorem get_config_after_save client_get config st :
  ∃ stored,
    get_config (final (save_config client_get config st)) = (true, Some stored)
    ∧ fb_token stored = fb_token config
    ∧ page_id stored = page_id config
    ∧ delay_minutes stored = delay_minutes config
    ∧ mention_uid stored = mention_uid config
    ∧ prefix_text stored = prefix_text config
    ∧ (truthy (mention_name config) = true
       ∨ truthy (mention_uid config) = false →
       mention_name stored = mention_name config)
    ∧ (∀ uid, mention_uid config = Some uid → uid ≠ [] →
         truthy (mention_name config) = false →
         let reply := client_get (graph ++ uid) (fb_token config) in
         (∀ name, reply = GetResponse 200 (Some (NameString name)) →
                  name ≠ [] → mention_name stored = Some name)
         ∧ ((∀ name, name ≠ [] →
                     reply ≠ GetResponse 200 (Some (NameString name))) →
            mention_name stored = mention_name config)).
Proof.
  unfold get_config, save_config. cbn [final config_data with_config].
  set (lookup :=
         if truthy (mention_uid config) && negb (truthy (mention_name config))
         then get_facebook_user_name client_get (text_of (mention_uid config))
                (fb_token config)
         else ([], None)).
  eexists. split; [reflexivity|].
  do 5 (split; [by destruct (truthy lookup.2)|]). split.
  - intros Hskip.
    assert (Hl : lookup = ([], None)).
    { subst lookup. destruct Hskip as [-> | ->];
        [by rewrite andb_false_r | done]. }
    by rewrite Hl.
  - intros uid Huid Hne Hn.
    set (reply := client_get (graph ++ uid) (fb_token config)).
    assert (Hl : lookup.2 =
                 (get_facebook_user_name client_get uid (fb_token config)).2).
    { subst lookup. rewrite Huid, Hn. by destruct uid. }
    rewrite Hl.
    destruct (lookup_name_cases client_get uid (fb_token config))
      as [Hfound Hnone]. fold reply in Hfound, Hnone.
    split.
    + intros name Hreply Hname. rewrite (Hfound name Hreply Hname).
      by destruct name.
    + intros Hno. by rewrite (Hnone Hno).
Qed.

Lemma get_config_after_save_witness :
  let config := {| fb_token := lit "T"; page_id := None;
                   delay_minutes := 5; mention_uid := Some (lit "7");
                   mention_name := None; prefix_text := None |} in
  let found := λ _ _, GetResponse 200 (Some (NameString (lit "Al"))) in
  ∃ stored,
    get_config (final (save_config found config initial)) = (true, Some stored)
    ∧ mention_name stored = Some (lit "Al")
    ∧ fb_token stored = lit "T".
Proof.
  intros config found.
  destruct (get_config_after_save found config initial)
    as (stored & Hget & Htok & _ & _ & _ & _ & _ & Hlookup).
  exists stored. split; [exact Hget|]. split; [|exact Htok].
  exact (proj1 (Hlookup (lit "7") eq_refl ltac:(discriminate) eq_refl)
           (lit "Al") eq_refl ltac:(discriminate)).
Defined.

(** ** What is never undone *)

Lemma steps_config_queue st st' :
  rtc step st st' →
  (is_Some (config_data st) → is_Some (config_data st'))
  ∧ (lines (queue_data st) ≠ [] → lines (queue_data st') ≠ []).
Proof.
  induction 1 as [st|st mid st' Hstep _ [IHc IHq]]; [done|].
  split.
  - intros Hc. apply IHc.
    destruct (step_config _ _ Hstep) as [-> | Hsome]; done.
  - intros Hq. apply IHq.
    destruct (step_lines _ _ Hstep) as [-> | (text & Hne & ->)]; done.
Qed.

(** X6: no route and no loop iteration removes the config or empties
    the queue.  So once a config is stored and entries are uploaded,
    whatever happens afterwards, [start_posting] never fails again: it
    either starts the loop or reports that it is running. *)
Theorem start_posting_stays_possible t st st' :
  rtc step st st' →
  is_Some (config_data st) →
  lines (queue_data st) ≠ [] →
  is_Some (config_data st')
  ∧ lines (queue_data st') ≠ []
  ∧ (answer (start_posting t st') = PostingStarted
     ∨ answer (start_posting t st') = AlreadyRunning).
Proof.
  intros Hsteps Hc Hq.
  destruct (steps_config_queue _ _ Hsteps) as [Hc' Hq'].
  specialize (Hc' Hc). specialize (Hq' Hq). split_and!; [done | done |].
  unfold start_posting. destruct (is_posting st'); [by right|].
  destruct Hc' as [c ->]. destruct (lines (queue_data st')); [done | by left].
Qed.

Lemma start_posting_stays_possible_witness :
  answer (start_posting 2 (loop_iteration no_post (lit "t0") started).2)
  = PostingStarted
  ∨ answer (start_posting 2 (loop_iteration no_post (lit "t0") started).2)
    = AlreadyRunning.
Proof.
  refine (proj2 (proj2 (start_posting_stays_possible 2 configured
            (loop_iteration no_post (lit "t0") started).2 _ _ _))).
  - eapply rtc_l; [apply (step_start_posting 1)|].
    eapply rtc_l; [apply (step_loop_iteration no_post (lit "t0")); reflexivity|].
    apply rtc_refl.
  - vm_compute. eexists. reflexivity.
  - vm_compute. discriminate.
Defined.

(** ** A running scheduler *)

Lemma composed_message_suffix config text :
  ∃ decoration, composed_message config text = decoration ++ text.
Proof.
  unfold composed_message, prefixed_message.
  destruct (truthy (get prefix_text config)),
    (truthy (get mention_uid config)).
  - eexists. rewrite !app_assoc. reflexivity.
  - eexists. reflexivity.
  - eexists. rewrite !app_assoc. reflexivity.
  - by exists [].
Qed.

(** X7: in every state the server can reach, a cursor on a non-empty
    queue points at an entry, so the index read of the loop cannot fail.
    While the scheduler runs, the next iteration therefore sends exactly
    one POST and then waits sixty times the stored [delay_minutes]: the
    POST goes to the feed of the stored page id when that is non-empty
    and to the me feed otherwise, carries the stored token, and its
    message ends with the entry under the cursor. *)
Theorem running_iteration_publishes client_post now st :
  reachable st →
  (lines (queue_data st) ≠ [] →
   is_Some (lines (queue_data st) !! current_index (queue_data st)))
  ∧ (is_posting st = true →
     ∃ c current_line data,
       config_data st = Some c
       ∧ lines (queue_data st) !! current_index (queue_data st)
         = Some current_line
       ∧ (loop_iteration client_post now st).1 =
           [HttpPost
              (match page_id c with
               | Some (ch :: page) =>
                   lit "https://graph.facebook.com/v21.0/" ++ (ch :: page)
                     ++ lit "/feed"
               | _ => lit "https://graph.facebook.com/v21.0/me/feed"
               end) data;
            Sleep (delay_minutes c * 60)]
       ∧ message data = composed_message (Some c) current_line
       ∧ (∃ decoration, message data = decoration ++ current_line)
       ∧ access_token data = fb_token c).
Proof.
  intros Hwf%reachable_wf. split.
  - intros Hq. apply lookup_lt_is_Some_2. by apply wf_cursor.
  - intros Hrun.
    destruct (wf_running_config _ Hwf Hrun) as [c Hc].
    pose proof (wf_running_queue _ Hwf Hrun) as Hq.
    destruct (lookup_lt_is_Some_2 _ _ (wf_cursor _ Hwf Hq)) as [line Hline].
    exists c, line. eexists. split; [done|]. split; [done|]. split.
    { rewrite (loop_iteration_publishes _ _ _ _ Hline). cbv zeta.
      rewrite finish_cycle_nonempty by done. rewrite Hc.
      unfold post_to_facebook, delay_seconds. cbn [fst snd app from_option].
      do 2 f_equal. unfold feed_url. rewrite get_Some.
      destruct (page_id c) as [[|ch page]|]; reflexivity. }
    split; [reflexivity|]. split; [|reflexivity].
    apply composed_message_suffix.
Qed.

Lemma running_iteration_publishes_witness :
  ∃ data,
    (loop_iteration ok_post (lit "t0") page_started).1 =
      [HttpPost (lit "https://graph.facebook.com/v21.0/42/feed") data;
       Sleep 420]
    ∧ message data = lit "@[7:Al] > hello"
    ∧ access_token data = lit "T".
Proof.
  destruct (proj2 (running_iteration_publishes ok_post (lit "t0")
                     page_started reachable_page_started) eq_refl)
    as (c & line & data & Hc & Hline & Heff & Hm & _ & Ht).
  injection Hc as <-. injection Hline as <-.
  exists data. rewrite Heff, Hm, Ht. split_and!; reflexivity.
Defined.

(** ** Status *)

(** X8: in every state the server can reach, the status reports
    position 0 exactly when the queue is empty and otherwise a position
    between 1 and the total; a running scheduler always reports at least
    one entry. *)
Theorem get_status_bounds st :
  reachable st →
  let s := get_status st in
  is_running s = is_posting st
  ∧ ps_total_lines s = length (lines (queue_data st))
  ∧ (current_line s = 0 ↔ ps_total_lines s = 0)
  ∧ current_line s ≤ ps_total_lines s
  ∧ (is_running s = true → 1 ≤ current_line s).
Proof.
  intros Hwf%reachable_wf s. subst s. unfold get_status. simpl.
  pose proof (wf_cursor _ Hwf) as Hc.
  pose proof (wf_running_queue _ Hwf) as Hq.
  destruct (lines (queue_data st)) as [|l ls]; simpl in *.
  - split_and!; try done. intros Hrun. by destruct (Hq Hrun).
  - specialize (Hc ltac:(done)).
    split_and!; try done; try lia; split; intros; lia.
Qed.

Lemma get_status_bounds_witness :
  get_status started =
    {| is_running := true; current_line := 1; ps_total_lines := 2 |}
  ∧ current_line (get_status started) ≤ ps_total_lines (get_status started).
Proof.
  split; [reflexivity|].
  exact (proj1 (proj2 (proj2 (proj2 (get_status_bounds started
                                       reachable_started))))).
Defined.

(** X9: an accepted upload shows at once in the status: position 1 of
    as many entries as the answer counts, at least one, with the running
    flag as it was; and a loop iteration that follows publishes the first
    new entry, recorded with position 1. *)
Theorem upload_then_status filename content st body :
  answer (upload_file filename content st) = Ok body →
  let st' := final (upload_file filename content st) in
  get_status st' =
    {| is_running := is_posting st; current_line := 1;
       ps_total_lines := total_lines body |}
  ∧ 1 ≤ total_lines body
  ∧ config_data st' = config_data st
  ∧ history_data st' = history_data st
  ∧ ∃ first,
      head (lines (queue_data st')) = Some first
      ∧ ∀ client_post now,
          published <$> head (history_data (loop_iteration client_post now st').2)
          = Some (first, 1).
Proof.
  unfold upload_file. destruct (negb _); [by intros [=]|].
  destruct content as [text|]; [|by intros [=]].
  destruct (parse_lines text) as [|first rest] eqn:Hp; [by intros [=]|].
  intros [= <-]. simpl. split_and!; [done | lia | done | done |].
  exists first. split; [done|]. intros client_post now.
  unfold loop_iteration, finish_cycle. simpl. by rewrite record_cons.
Qed.

Lemma upload_then_status_witness :
  get_status
    (final (upload_file (lit "new.txt") (Text (lit "one")) started))
  = {| is_running := true; current_line := 1; ps_total_lines := 1 |}.
Proof.
  destruct (upload_then_status (lit "new.txt") (Text (lit "one")) started
              _ eq_refl) as (Hs & _).
  rewrite Hs. reflexivity.
Defined.

(** ** Start, then stop *)

(** X10: from a reachable stopped state a successful start followed by
    a stop gives back exactly the state before the start, and the stop
    cancels and awaits the task that the start created. *)
Theorem start_then_stop_restores t st :
  reachable st →
  answer (start_posting t st) = PostingStarted →
  stop_posting (final (start_posting t st)) =
    {| answer := PostingStopped;
       effects := [CancelTask t; AwaitTask t];
       final := st |}.
Proof.
  intros Hwf%reachable_wf. unfold start_posting.
  destruct (is_posting st) eqn:Hrun; [by intros [=]|].
  destruct (config_data st); [|by intros [=]].
  destruct (lines (queue_data st)); [by intros [=]|]. intros _.
  pose proof (wf_stopped_task _ Hwf Hrun) as Htask.
  unfold stop_posting. simpl. f_equal.
  destruct st. simpl in *. by subst.
Qed.

Lemma start_then_stop_restores_witness :
  final (stop_posting started) = configured.
Proof.
  unfold started.
  rewrite (start_then_stop_restores 1 configured reachable_configured eq_refl).
  reflexivity.
Defined.

(** ** One iteration, whatever happens *)

Lemma loop_iteration_cases client_post now st :
  loop_iteration client_post now st = ([Sleep 60], st)
  ∨ ∃ current_line,
      lines (queue_data st) !! current_index (queue_data st) = Some current_line
      ∧ loop_iteration client_post now st =
          ((post_to_facebook client_post (config_data st) current_line).1
             ++ [Sleep (delay_seconds (config_data st))],
           with_queue
             (with_history st
                (record
                   {| content := current_line;
                      line_number := current_index (queue_data st) + 1;
                      status :=
                        if (post_to_facebook client_post (config_data st)
                              current_line).2.1
                        then lit "success" else lit "failed";
                      error_message :=
                        (post_to_facebook client_post (config_data st)
                           current_line).2.2;
                      posted_at := now |} (history_data st)))
             (advance (queue_data st))).
Proof.
  destruct (lines (queue_data st) !! current_index (queue_data st))
    as [current_line|] eqn:Hline.
  - right. exists current_line. split; [done|].
    rewrite (loop_iteration_publishes _ _ _ _ Hline). cbv zeta.
    rewrite finish_cycle_nonempty; [done|].
    intros Hnil. by rewrite Hnil in Hline.
  - left. unfold loop_iteration. rewrite Hline.
    by destruct (lines (queue_data st)).
Qed.

Lemma post_to_facebook_effects client_post config text :
  (post_to_facebook client_post config text).1 = []
  ∨ ∃ url data, (post_to_facebook client_post config text).1 = [HttpPost url data].
Proof. unfold post_to_facebook. destruct config; simpl; eauto. Qed.

Lemma post_to_facebook_outcome client_post config text :
  (post_to_facebook client_post config text).2 = (true, None)
  ∨ ∃ description,
      (post_to_facebook client_post config text).2 = (false, Some description).
Proof.
  unfold post_to_facebook. destruct config as [c|]; simpl; [|by eauto].
  destruct (client_post _ _) as [code body|description]; [|by eauto].
  destruct (code =? 200)%Z; eauto.
Qed.

Lemma success_ne_failed : lit "success" ≠ lit "failed".
Proof. by vm_compute. Qed.

(** X11: an iteration of the loop, in any state and whatever the network
    does, never touches the config, the running flag, the task handle or
    the entries of the queue.  With no entry under the cursor (an empty
    queue among the cases) it changes nothing at all and waits 60
    seconds.  With an entry under the cursor it sends at most one POST,
    records exactly one entry at the front of the log, keeping the 49
    newest old ones, moves the cursor to the next index modulo the
    length, and last waits sixty times the stored [delay_minutes] (300
    seconds on an empty config). *)
Theorem loop_iteration_shape client_post now st :
  let it := loop_iteration client_post now st in
  config_data it.2 = config_data st
  ∧ is_posting it.2 = is_posting st
  ∧ posting_task it.2 = posting_task st
  ∧ lines (queue_data it.2) = lines (queue_data st)
  ∧ (lines (queue_data st) !! current_index (queue_data st) = None →
     it = ([Sleep 60], st))
  ∧ (∀ current_line,
       lines (queue_data st) !! current_index (queue_data st)
         = Some current_line →
       ∃ posts entry,
         it.1 = posts ++ [Sleep (match config_data st with
                                 | Some c => delay_minutes c * 60
                                 | None => 5 * 60
                                 end)%Z]
         ∧ (posts = [] ∨ ∃ url data, posts = [HttpPost url data])
         ∧ history_data it.2 = entry :: take 49 (history_data st)
         ∧ content entry = current_line
         ∧ current_index (queue_data it.2) =
             (current_index (queue_data st) + 1)
               mod length (lines (queue_data st))).
Proof.
  intros it. subst it.
  destruct (lines (queue_data st) !! current_index (queue_data st))
    as [line|] eqn:Hline.
  - rewrite (loop_iteration_publishes _ _ _ _ Hline). cbv zeta.
    rewrite finish_cycle_nonempty
      by (intros Hnil; by rewrite Hnil in Hline).
    do 4 (split; [done|]). split; [done|].
    intros current_line [= <-].
    exists (post_to_facebook client_post (config_data st) line).1.
    eexists. split_and!.
    + cbn [fst]. unfold delay_seconds. by destruct (config_data st).
    + apply post_to_facebook_effects.
    + simpl. apply record_cons.
    + done.
    + done.
  - assert (Hidle : loop_iteration client_post now st = ([Sleep 60], st)).
    { unfold loop_iteration. rewrite Hline.
      by destruct (lines (queue_data st)). }
    rewrite Hidle. do 4 (split; [done|]). split; [done|]. by intros ? [=].
Qed.

Lemma loop_iteration_shape_witness :
  loop_iteration ok_post (lit "t0") initial = ([Sleep 60], initial)
  ∧ ∃ posts entry,
      (loop_iteration ok_post (lit "t0") page_started).1 = posts ++ [Sleep 420]
      ∧ history_data (loop_iteration ok_post (lit "t0") page_started).2
        = [entry]
      ∧ content entry = lit "hello"
      ∧ current_index
          (queue_data (loop_iteration ok_post (lit "t0") page_started).2) = 1.
Proof.
  split.
  - exact (proj1 (proj2 (proj2 (proj2 (proj2
             (loop_iteration_shape ok_post (lit "t0") initial))))) eq_refl).
  - destruct (proj2 (proj2 (proj2 (proj2 (proj2
                (loop_iteration_shape ok_post (lit "t0") page_started)))))
                (lit "hello") eq_refl)
      as (posts & entry & Heff & _ & Hh & Hc & Hi).
    exists posts, entry. split_and!; [exact Heff | exact Hh | exact Hc | exact Hi].
Defined.

(** X12: when the cursor points at an entry, the iteration records that
    entry with its 1-based position and the time of the clock, whatever
    the publish call returns: with status success and no error text
    exactly when the call reported success, and with status failed and
    the description otherwise; the cursor advances in both cases. *)
Theorem loop_iteration_records client_post now st current_line :
  lines (queue_data st) !! current_index (queue_data st) = Some current_line →
  let sent := post_to_facebook client_post (config_data st) current_line in
  let it := loop_iteration client_post now st in
  ∃ entry,
    history_data it.2 = entry :: take 49 (history_data st)
    ∧ content entry = current_line
    ∧ line_number entry = current_index (queue_data st) + 1
    ∧ posted_at entry = now
    ∧ error_message entry = sent.2.2
    ∧ (status entry = lit "success" ↔ sent.2.1 = true)
    ∧ (status entry = lit "failed" ↔ sent.2.1 = false)
    ∧ (status entry = lit "success" ↔ error_message entry = None)
    ∧ queue_data it.2 = advance (queue_data st)
    ∧ lines (queue_data it.2) = lines (queue_data st)
    ∧ current_index (queue_data it.2) =
        (current_index (queue_data st) + 1) mod length (lines (queue_data st)).
Proof.
  intros Hline sent it. subst it.
  rewrite (loop_iteration_publishes _ _ _ _ Hline). cbv zeta.
  rewrite finish_cycle_nonempty
    by (intros Hnil; by rewrite Hnil in Hline).
  fold sent. pose proof success_ne_failed as Hne.
  destruct (post_to_facebook_outcome client_post (config_data st) current_line)
    as [Hr | [description Hr]]; fold sent in Hr; rewrite Hr;
    eexists; (split; [simpl; apply record_cons|]); simpl;
    split_and!; try done; split; try done; congruence.
Qed.

Lemma loop_iteration_records_witness :
  published <$> head (history_data (loop_iteration ok_post (lit "t0") started).2)
  = Some (lit "hello", 1)
  ∧ current_index (queue_data (loop_iteration ok_post (lit "t0") started).2) = 1
  ∧ current_index
      (queue_data (loop_iteration ok_post (lit "t1") advanced_once).2) = 0.
Proof.
  split; [|split].
  - destruct (loop_iteration_records ok_post (lit "t0") started (lit "hello")
                eq_refl) as (entry & Hh & Hc & Hn & _).
    rewrite Hh. unfold published. simpl. rewrite Hc, Hn. reflexivity.
  - destruct (loop_iteration_records ok_post (lit "t0") started (lit "hello")
                eq_refl) as (entry & _ & _ & _ & _ & _ & _ & _ & _ & _ & _ & Hi).
    rewrite Hi. reflexivity.
  - destruct (loop_iteration_records ok_post (lit "t1") advanced_once
                (lit "world") eq_refl)
      as (entry & _ & _ & _ & _ & _ & _ & _ & _ & _ & _ & Hi).
    rewrite Hi. reflexivity.
Defined.

(** ** The loop as a whole *)

(** X13: a loop that finds the running flag set never leaves its
    [while] on its own, however many iterations run and whatever the
    network does: it is still waiting afterwards, with the flag, the task
    handle, the config and the entries of the queue as they were; it has
    waited exactly once per iteration and sent at most one POST per
    iteration. *)
Theorem posting_loop_never_exits world st :
  is_posting st = true →
  let run := posting_loop world st in
  run.2 = LoopWaiting
  ∧ is_posting run.1.2 = true
  ∧ posting_task run.1.2 = posting_task st
  ∧ config_data run.1.2 = config_data st
  ∧ lines (queue_data run.1.2) = lines (queue_data st)
  ∧ length (List.filter is_sleep run.1.1) = length world
  ∧ length (List.filter is_http_post run.1.1) ≤ length world.
Proof.
  revert st. induction world as [|[client_post now] world IH];
    intros st Hrun; simpl; rewrite Hrun; [by split_and!|].
  cbn [fst snd].
  destruct (loop_iteration_cases client_post now st)
    as [-> | (line & Hline & ->)]; cbn [fst snd].
  - destruct (IH st Hrun) as (Hs & Hr & Ht & Hc & Hl & Hsl & Hp).
    split_and!; try done; simpl; lia.
  - match goal with |- context [posting_loop world ?s] =>
      destruct (IH s Hrun) as (Hs & Hr & Ht & Hc & Hl & Hsl & Hp) end.
    split_and!; try done.
    + rewrite <- app_assoc, !List.filter_app, !length_app, Hsl.
      destruct (post_to_facebook_effects client_post (config_data st) line)
        as [-> | (url & data & ->)]; simpl; lia.
    + rewrite <- app_assoc, !List.filter_app, !length_app.
      destruct (post_to_facebook_effects client_post (config_data st) line)
        as [-> | (url & data & ->)]; simpl; lia.
Qed.

Lemma posting_loop_never_exits_witness :
  (posting_loop [(no_post, lit "t1"); (ok_post, lit "t2"); (no_post, lit "t3")]
     started).2 = LoopWaiting.
Proof.
  exact (proj1 (posting_loop_never_exits
                  [(no_post, lit "t1"); (ok_post, lit "t2"); (no_post, lit "t3")]
                  started eq_refl)).
Defined.

Lemma take_app_take {A} (l k : list A) n m :
  n ≤ length l + m → take n (l ++ take m k) = take n (l ++ k).
Proof.
  intros Hn. rewrite !take_app, take_take. do 2 f_equal. lia.
Qed.

Lemma upcoming_advance q s k :
  upcoming q <$> seq (S s) k = upcoming (advance q) <$> seq s k.
Proof.
  revert s. induction k as [|k IH]; intros s; [done|].
  simpl seq. rewrite !fmap_cons, IH. f_equal.
  unfold upcoming. simpl lines. simpl current_index.
  rewrite Nat.Div0.add_mod_idemp_l.
  by replace (current_index q + 1 + s) with (current_index q + S s) by lia.
Qed.

(** X14: while nothing else touches the globals, a running loop
    publishes the entries in queue order, starting at the cursor and
    wrapping around after the last one: after any number of iterations
    the log shows, newest first and cut to 50, the entries under the
    cursor after 0, 1, 2, ... advances, each with its 1-based position,
    in front of what the log held before. *)
Theorem posting_loop_publish_order world st :
  is_posting st = true →
  current_index (queue_data st) < length (lines (queue_data st)) →
  length (history_data st) ≤ 50 →
  published <$> history_data (posting_loop world st).1.2 =
    take 50 (rev (upcoming (queue_data st) <$> seq 0 (length world))
               ++ (published <$> history_data st)).
Proof.
  revert st. induction world as [|[client_post now] world IH];
    intros st Hrun Hi Hh; simpl posting_loop; rewrite Hrun.
  - simpl. rewrite take_ge; [done|]. by rewrite length_fmap.
  - cbn [fst snd].
    destruct (lookup_lt_is_Some_2 _ _ Hi) as [line Hline].
    assert (Hq : lines (queue_data st) ≠ []).
    { intros Hnil. by rewrite Hnil in Hline. }
    rewrite (loop_iteration_publishes _ _ _ _ Hline). cbv zeta.
    rewrite finish_cycle_nonempty by done. cbn [fst snd].
    rewrite IH;
      [| done | exact (advance_in_range (queue_data st) Hq)
       | apply length_record].
    cbn [queue_data history_data with_queue with_history].
    rewrite record_cons, fmap_cons, fmap_take.
    simpl length. simpl seq. rewrite fmap_cons, upcoming_advance.
    simpl rev. rewrite <- app_assoc. simpl app.
    assert (Hfirst : upcoming (queue_data st) 0 =
                     (line, current_index (queue_data st) + 1)).
    { unfold upcoming. cbv zeta. rewrite Nat.add_0_r.
      rewrite (Nat.mod_small _ _ Hi). by rewrite Hline. }
    rewrite Hfirst. unfold published at 1. cbn [content line_number].
    match goal with |- take 50 (?l ++ ?x :: take 49 ?k) = _ =>
      change (x :: take 49 k) with (take 50 (x :: k)) end.
    apply take_app_take. lia.
Qed.

Lemma posting_loop_publish_order_witness :
  published <$>
    history_data
      (posting_loop [(ok_post, lit "t1"); (no_post, lit "t2");
                     (ok_post, lit "t3")] started).1.2
  = [(lit "hello", 1); (lit "world", 2); (lit "hello", 1)].
Proof.
  rewrite (posting_loop_publish_order _ started eq_refl);
    [reflexivity | vm_compute; lia | vm_compute; lia].
Defined.

(** ** What a queue holds *)

Lemma lstrip_fixed (s : str) :
  (∀ c r, s = c :: r → is_space c = false) → lstrip s = s.
Proof.
  destruct s as [|c r]; [done|]. intros H. simpl.
  by rewrite (H c r eq_refl).
Qed.

Lemma strip_fixed (s : str) :
  (∀ c r, s = c :: r → is_space c = false) →
  (∀ c r, s = r ++ [c] → is_space c = false) →
  strip s = s.
Proof.
  intros Hhd Hlast. unfold strip, rstrip. rewrite (lstrip_fixed s Hhd).
  rewrite lstrip_fixed; [apply rev_involutive|].
  intros c r Hrev. apply (Hlast c (rev r)).
  rewrite <- (rev_involutive s), Hrev. done.
Qed.

Lemma strip_idemp s : strip (strip s) = strip s.
Proof.
  destruct (strip_spec s) as (_ & _ & _ & _ & _ & Hhd & Hlast).
  by apply strip_fixed.
Qed.

Lemma elem_of_strip c s : c ∈ strip s → c ∈ s.
Proof.
  destruct (strip_spec s) as (pre & post & Hs & _).
  intros Hc. rewrite Hs, !elem_of_app. auto.
Qed.

Lemma parse_lines_clean text : Forall clean (parse_lines text).
Proof.
  apply Forall_forall. intros entry (Hne & line & Hin & ->)%elem_of_parse_lines.
  split_and!; [done | | apply strip_idemp].
  intros Hlf%elem_of_strip.
  pose proof (split_no_sep LF text) as Hsep.
  rewrite Forall_forall in Hsep. by apply (Hsep line).
Qed.

Lemma reachable_clean st : reachable st → Forall clean (lines (queue_data st)).
Proof.
  unfold reachable. revert st. apply (rtc_ind_r (R := step)); [by constructor|].
  intros st st' _ Hstep IH.
  destruct (step_lines _ _ Hstep) as [-> | (text & _ & ->)]; [done|].
  apply parse_lines_clean.
Qed.

(** X15: whatever text is uploaded, every entry taken from it is
    non-empty, holds no line feed and neither starts nor ends with white
    space; and every entry of the queue of every state the server can
    reach is of that kind, so the loop never publishes a blank entry. *)
Theorem queue_entries_clean :
  (∀ text entry,
     entry ∈ parse_lines text →
     entry ≠ [] ∧ (LF ∉ entry)
     ∧ (∀ c r, entry = c :: r → is_space c = false)
     ∧ (∀ c r, entry = r ++ [c] → is_space c = false))
  ∧ (∀ st entry,
       reachable st → entry ∈ lines (queue_data st) →
       entry ≠ [] ∧ (LF ∉ entry) ∧ strip entry = entry).
Proof.
  split.
  - intros text entry Hin.
    pose proof (parse_lines_clean text) as Hclean.
    rewrite Forall_forall in Hclean.
    destruct (Hclean entry Hin) as (Hne & Hlf & Hstrip).
    destruct (strip_spec entry) as (_ & _ & _ & _ & _ & Hhd & Hlast).
    rewrite Hstrip in Hhd, Hlast. done.
  - intros st entry Hst Hin.
    pose proof (reachable_clean st Hst) as Hclean.
    rewrite Forall_forall in Hclean. apply (Hclean entry Hin).
Qed.

Lemma queue_entries_clean_witness :
  lit "hello" ≠ [] ∧ (LF ∉ lit "hello") ∧ strip (lit "hello") = lit "hello".
Proof.
  apply (proj2 queue_entries_clean started (lit "hello") reachable_started).
  vm_compute. constructor.
Defined.

(** ** Uploading a queue again *)

Lemma split_no_sep_id sep (w : str) : sep ∉ w → split sep w = [w].
Proof.
  induction w as [|c r IH]; [done|]. intros Hnin. simpl.
  destruct (N.eqb_spec c sep) as [->|Hne].
  - exfalso. apply Hnin. by left.
  - rewrite IH; [done|]. intros Hin. apply Hnin. by right.
Qed.

Lemma split_app_sep sep (w s : str) :
  sep ∉ w → split sep (w ++ sep :: s) = w :: split sep s.
Proof.
  induction w as [|c r IH]; intros Hnin; simpl.
  - by rewrite N.eqb_refl.
  - destruct (N.eqb_spec c sep) as [->|Hne].
    + exfalso. apply Hnin. by left.
    + rewrite IH; [done|]. intros Hin. apply Hnin. by right.
Qed.

Lemma split_join sep (ws : list str) :
  ws ≠ [] → Forall (λ w, sep ∉ w) ws → split sep (join sep ws) = ws.
Proof.
  induction ws as [|w ws IH]; [done|]. intros _ Hall.
  inversion Hall as [|? ? Hw Hws]; subst.
  destruct ws as [|w' ws]; [by apply split_no_sep_id|].
  change (join sep (w :: w' :: ws)) with (w ++ sep :: join sep (w' :: ws)).
  rewrite split_app_sep by done. by rewrite IH.
Qed.

Lemma strip_filter_clean (ws : list str) :
  Forall clean ws →
  map strip (List.filter (λ line, nonempty (strip line)) ws) = ws.
Proof.
  induction 1 as [|v vs (Hne & _ & Hstrip) _ IH]; [done|].
  cbn [List.filter]. rewrite Hstrip.
  destruct v as [|c v']; [done|]. cbn [nonempty map].
  by rewrite Hstrip, IH.
Qed.

Lemma parse_lines_join (ws : list str) :
  Forall clean ws → parse_lines (join LF ws) = ws.
Proof.
  intros Hclean. destruct ws as [|w ws]; [done|].
  unfold parse_lines. rewrite split_join; [by apply strip_filter_clean|done|].
  eapply Forall_impl; [done|]. by intros v (_ & Hlf & _).
Qed.

(** X16: parsing is stable under its own output: the entries taken from
    a text, joined with line feeds and parsed again, are the same
    entries.  So uploading, as a .txt file, the current queue of a
    reachable state written one entry per line installs the same entries
    again, with the cursor back at 0. *)
Theorem upload_joined_queue filename st :
  (∀ text, parse_lines (join LF (parse_lines text)) = parse_lines text)
  ∧ (reachable st →
     endswith filename (lit ".txt") = true →
     lines (queue_data st) ≠ [] →
     final (upload_file filename (Text (join LF (lines (queue_data st)))) st)
     = with_queue st {| lines := lines (queue_data st); current_index := 0 |}
     ∧ lines (queue_data
                (final (upload_file filename
                          (Text (join LF (lines (queue_data st)))) st)))
       = lines (queue_data st)
     ∧ current_index
         (queue_data
            (final (upload_file filename
                      (Text (join LF (lines (queue_data st)))) st))) = 0).
Proof.
  split.
  - intros text. apply parse_lines_join, parse_lines_clean.
  - intros Hst Hname Hq. unfold upload_file. rewrite Hname. simpl.
    rewrite (parse_lines_join _ (reachable_clean st Hst)).
    by destruct (lines (queue_data st)).
Qed.

Lemma upload_joined_queue_witness :
  current_index (queue_data advanced_once) = 1
  ∧ queue_data
      (final (upload_file (lit "again.txt")
                (Text (join LF (lines (queue_data advanced_once))))
                advanced_once))
    = {| lines := [lit "hello"; lit "world"]; current_index := 0 |}.
Proof.
  split; [reflexivity|].
  rewrite (proj1 (proj2 (upload_joined_queue (lit "again.txt") advanced_once)
                    reachable_advanced_once eq_refl
                    ltac:(vm_compute; discriminate))).
  reflexivity.
Defined.

(** ** The file-type test *)

Lemma startswith_spec (s p : str) :
  startswith s p = true ↔ ∃ r, s = p ++ r.
Proof.
  revert s. induction p as [|a p IH]; intros s.
  - split; [intros _; by exists s | by destruct s].
  - destruct s as [|b s]; simpl.
    + split; [done | by intros [r [=]]].
    + destruct (N.eqb_spec a b) as [->|Hne]; simpl.
      * rewrite IH. split; intros [r Hr]; exists r; congruence.
      * split; [done|]. intros [r [= ? _]]. congruence.
Qed.

Lemma endswith_spec (s suffix : str) :
  endswith s suffix = true ↔ ∃ stem, s = stem ++ suffix.
Proof.
  unfold endswith. rewrite startswith_spec. split.
  - intros [r Hr]. exists (rev r).
    rewrite <- (rev_involutive s), Hr, rev_app_distr.
    by rewrite rev_involutive.
  - intros [stem ->]. exists (rev stem). apply rev_app_distr.
Qed.

(** X17: an upload is turned away with the file-type error exactly when
    its file name is not some stem, possibly empty, followed by the four
    characters of the extension in lower case; the test looks at nothing
    but the name. *)
Theorem upload_file_type_check filename content st :
  answer (upload_file filename content st)
  = HTTPException 400 (lit "Only .txt files are allowed")
  ↔ ¬ ∃ stem, filename = stem ++ lit ".txt".
Proof.
  rewrite <- endswith_spec. unfold upload_file.
  destruct (endswith filename (lit ".txt")); simpl.
  - split; [|done]. destruct content as [text|]; [|done].
    destruct (parse_lines text); [|done]. by vm_compute.
  - done.
Qed.

Lemma upload_file_type_check_witness :
  answer (upload_file (lit "posts.TXT") (Text (lit "a")) initial)
  = HTTPException 400 (lit "Only .txt files are allowed").
Proof.
  apply (proj2 (upload_file_type_check (lit "posts.TXT") (Text (lit "a"))
                  initial)).
  intros [stem Hstem]. apply (f_equal (@rev _)) in Hstem.
  rewrite rev_app_distr in Hstem. vm_compute in Hstem. discriminate.
Defined.

(** ** What the log holds *)

Lemma step_history st st' :
  step st st' →
  history_data st' = history_data st
  ∨ ∃ entry, history_data st' = record entry (history_data st)
             ∧ known_status (status entry) ∧ 1 ≤ line_number entry.
Proof.
  destruct 1 as [cg c st|fn ct st|t st|st|cp now st _|l r now st _].
  - by left.
  - left. unfold upload_file. destruct (negb _); [done|].
    destruct ct as [text|]; [|done]. by destruct (parse_lines text).
  - left. unfold start_posting. destruct (is_posting st); [done|].
    destruct (config_data st); [|done]. by destruct (lines (queue_data st)).
  - left. unfold stop_posting. destruct (is_posting st); [|done].
    by destruct (posting_task st).
  - destruct (loop_iteration_cases cp now st) as [-> | (line & _ & ->)];
      [by left|].
    right. eexists. split; [reflexivity|]. simpl. split; [|lia].
    unfold known_status. destruct (_.2.1); auto.
  - right. unfold finish_cycle. eexists. split.
    + destruct (lines (queue_data st)); reflexivity.
    + simpl. split; [|lia]. unfold known_status. destruct r.1; auto.
Qed.

(** X18: in every state the server can reach, every entry of the log
    has status success or failed and a position of at least 1. *)
Theorem reachable_history_entries st entry :
  reachable st →
  entry ∈ history_data st →
  known_status (status entry) ∧ 1 ≤ line_number entry.
Proof.
  intros Hst. revert entry. apply Forall_forall.
  revert st Hst. apply (rtc_ind_r (R := step)); [by constructor|].
  intros st st' _ Hstep IH.
  destruct (step_history _ _ Hstep) as [-> | (e & -> & He)]; [done|].
  rewrite record_cons. constructor; [done|]. by apply Forall_take.
Qed.

Lemma reachable_history_entries_witness :
  let entry := {| content := lit "hello"; line_number := 1;
                  status := lit "failed";
                  error_message := Some (lit "timed out");
                  posted_at := lit "t0" |} in
  known_status (status entry) ∧ 1 ≤ line_number entry.
Proof.
  intros entry.
  apply (reachable_history_entries
           (loop_iteration no_post (lit "t0") started).2 entry).
  - eapply rtc_r; [apply reachable_started|].
    apply (step_loop_iteration no_post (lit "t0")). reflexivity.
  - vm_compute. constructor.
Defined.

(** ** A config saved while the loop runs *)

Lemma save_config_stored client_get config st :
  ∃ stored,
    final (save_config client_get config st) = with_config st (Some stored)
    ∧ fb_token stored = fb_token config
    ∧ delay_minutes stored = delay_minutes config
    ∧ page_id stored = page_id config.
Proof.
  unfold save_config. cbn [final].
  match goal with |- context [if ?b then _ else config] => destruct b end;
    eexists; (split; [reflexivity|]); by split_and!.
Qed.

(** X19: saving a config neither stops nor restarts the loop and leaves
    the queue and the log alone, and the new config is the one the next
    iteration uses: with the cursor on an entry, that iteration sends its
    POST with the new token to the feed of the new page id and then waits
    the new delay. *)
Theorem save_config_then_iteration client_get config client_post now st line :
  lines (queue_data st) !! current_index (queue_data st) = Some line →
  let st' := final (save_config client_get config st) in
  is_posting st' = is_posting st
  ∧ posting_task st' = posting_task st
  ∧ queue_data st' = queue_data st
  ∧ history_data st' = history_data st
  ∧ ∃ data,
      (loop_iteration client_post now st').1 =
        [HttpPost (feed_url (Some config)) data;
         Sleep (delay_minutes config * 60)]
      ∧ access_token data = fb_token config
      ∧ ∃ decoration, message data = decoration ++ line.
Proof.
  intros Hline st'. subst st'.
  destruct (save_config_stored client_get config st)
    as (stored & -> & Htok & Hdelay & Hpage).
  do 4 (split; [reflexivity|]).
  assert (Hq : lines (queue_data (with_config st (Some stored))) ≠ []).
  { cbn [with_config queue_data]. intros Hnil. by rewrite Hnil in Hline. }
  rewrite (loop_iteration_publishes _ _ (with_config st (Some stored)) line Hline).
  cbv zeta. rewrite finish_cycle_nonempty by exact Hq.
  cbn [with_config config_data fst snd].
  unfold post_to_facebook, delay_seconds. cbn [fst snd app from_option].
  eexists. split; [|split].
  - rewrite Hdelay. do 2 f_equal.
    unfold feed_url. rewrite !get_Some. by rewrite Hpage.
  - exact Htok.
  - apply composed_message_suffix.
Qed.

Lemma save_config_then_iteration_witness :
  let config := {| fb_token := lit "N"; page_id := Some (lit "42");
                   delay_minutes := 3; mention_uid := None;
                   mention_name := None; prefix_text := None |} in
  ∃ data,
    (loop_iteration ok_post (lit "t0")
       (final (save_config no_get config started))).1 =
      [HttpPost (graph ++ lit "42/feed") data; Sleep 180]
    ∧ access_token data = lit "N".
Proof.
  intros config.
  destruct (save_config_then_iteration no_get config ok_post (lit "t0")
              started (lit "hello") eq_refl)
    as (_ & _ & _ & _ & data & Heff & Htok & _).
  exists data. rewrite Heff, Htok. split; reflexivity.
Defined.
